(** * helpers.js of moment-timezone-data-webpack-plugin

    A shallow embedding of [src/helpers.js]: the matcher compiler
    ([createMatchers]), the match evaluator ([anyMatch]), the cache
    fingerprint ([cacheKey]), the cache resolver ([cacheDir],
    [cacheFile]) and the helpers [flatMap] and [unique], together with the
    fragment of the JavaScript platform
    they run on (values and their string conversions, regular
    expressions, [JSON.stringify], MD5, POSIX [path.join] and a small
    file-system state).

    Strings are [String.string]; a character stands for one code unit in
    the range U+0000 .. U+00FF. *)

From Stdlib Require Import String Ascii List Bool Arith ZArith Lia.
From Stdlib Require Import DecimalString DecimalPos DecimalZ.
Import ListNotations.
Local Open Scope list_scope.
Local Open Scope string_scope.
Set Warnings "-register-all".

(** ** Exceptions and results *)

Inductive exn : Type :=
| TypeError          (* a method call on undefined or null, a non-string path *)
| SyntaxError        (* [new RegExp] on a pattern it cannot compile *)
| FindCacheDirError  (* whatever [findCacheDir] throws *)
| EACCES (path : string). (* [mkdir.sync] on a directory it may not create *)

Inductive result (A : Type) : Type :=
| Ok (a : A)
| Throw (e : exn).

Arguments Ok {A} a.
Arguments Throw {A} e.

Definition bind_result {A B : Type} (r : result A) (k : A -> result B) : result B :=
  match r with
  | Ok a => k a
  | Throw e => Throw e
  end.

Declare Scope result_scope.
Delimit Scope result_scope with result.
Notation "x <- r ;; k" := (bind_result r (fun x => k))
  (at level 61, r at next level, right associativity) : result_scope.

(** [arr.map(f)] where [f] may throw: elements are visited in order and the
    first exception aborts the call. *)
Fixpoint map_result {A B : Type} (f : A -> result B) (l : list A) : result (list B) :=
  match l with
  | [] => Ok []
  | a :: l' =>
      (b <- f a ;; bs <- map_result f l' ;; Ok (b :: bs))%result
  end.

(** ** Strings *)

Definition dquote : ascii := "034"%char.
Definition backslash : ascii := "\"%char.

(** [arr.join(sep)] on an array of strings. *)
Fixpoint join (sep : string) (l : list string) : string :=
  match l with
  | [] => EmptyString
  | [s] => s
  | s :: l' => s ++ sep ++ join sep l'
  end.

(** ** Regular expressions

    A [RegExp] object is represented by its compiled pattern.  The
    fragment covers what [helpers.js] builds and documents: pattern
    characters, identity escapes, [.], the assertions [^] and [$],
    non-capturing groups, alternation and the greedy quantifiers; no
    flags. *)

Inductive regex : Type :=
| Empty                      (* the empty alternative *)
| Char (c : ascii)           (* a pattern character or an identity escape *)
| Dot                        (* any character but a line terminator *)
| AssertStart                (* ^ *)
| AssertEnd                  (* $ *)
| Seq (r1 r2 : regex)        (* a term followed by the rest of its alternative *)
| Alt (r1 r2 : regex)        (* r1|r2 *)
| Star (r : regex)
| Plus (r : regex)
| Opt (r : regex)
| Group (r : regex).         (* (?:r) *)

(** The characters [RegExp.escape] escapes: the class
    [[\\^$*+?.()|[\]{}]] of the polyfill. *)
Definition syntax_chars : list ascii :=
  list_ascii_of_string "\^$*+?.()|[]{}".

Definition is_syntax_char (c : ascii) : bool :=
  existsb (Ascii.eqb c) syntax_chars.

(** *** Pattern text of a regular expression (its [source]): a slash and a
    line terminator are written escaped *)

Fixpoint print_regex (r : regex) : string :=
  match r with
  | Empty => EmptyString
  | Char c =>
      if is_syntax_char c || (c =? "/")%char
      then String backslash (String c EmptyString)
      else if (c =? "010")%char then "\n"
      else if (c =? "013")%char then "\r"
      else String c EmptyString
  | Dot => "."
  | AssertStart => "^"
  | AssertEnd => "$"
  | Seq r1 r2 => print_regex r1 ++ print_regex r2
  | Alt r1 r2 => print_regex r1 ++ "|" ++ print_regex r2
  | Star r' => print_regex r' ++ "*"
  | Plus r' => print_regex r' ++ "+"
  | Opt r' => print_regex r' ++ "?"
  | Group r' => "(?:" ++ print_regex r' ++ ")"
  end.

Definition source (r : regex) : string :=
  match print_regex r with
  | EmptyString => "(?:)"
  | s => s
  end.

(** *** [new RegExp(pattern)]: tokens, then recursive descent *)

Inductive token : Type :=
| TChar (c : ascii)
| TDot | TCaret | TDollar | TBar
| TOpen            (* "(?:" *)
| TClose
| TStar | TPlus | TQuest.

(** A character that is a token by itself.  Character classes, braces and
    capturing groups lie outside the fragment. *)
Definition single_token (c : ascii) : option token :=
  if (c =? ".")%char then Some TDot
  else if (c =? "^")%char then Some TCaret
  else if (c =? "$")%char then Some TDollar
  else if (c =? "|")%char then Some TBar
  else if (c =? ")")%char then Some TClose
  else if (c =? "*")%char then Some TStar
  else if (c =? "+")%char then Some TPlus
  else if (c =? "?")%char then Some TQuest
  else if is_syntax_char c then None
  else Some (TChar c).

Fixpoint tokenize (p : string) : option (list token) :=
  match p with
  | EmptyString => Some []
  | String c rest =>
      if (c =? backslash)%char then
        match rest with
        | String d rest' =>
            if is_syntax_char d || (d =? "/")%char
            then option_map (cons (TChar d)) (tokenize rest')
            else None
        | EmptyString => None
        end
      else if (c =? "(")%char then
        match rest with
        | String d (String e rest') =>
            if (d =? "?")%char && (e =? ":")%char
            then option_map (cons TOpen) (tokenize rest')
            else None
        | _ => None
        end
      else
        match single_token c with
        | Some t => option_map (cons t) (tokenize rest)
        | None => None
        end
  end.

Definition is_quantifier (t : token) : bool :=
  match t with
  | TStar | TPlus | TQuest => true
  | _ => false
  end.

(** An assertion takes no quantifier. *)
Definition unquantified (a : regex) (ts : list token) : option (regex * list token) :=
  match ts with
  | t :: _ => if is_quantifier t then None else Some (a, ts)
  | [] => Some (a, ts)
  end.

(** An atom and its optional greedy quantifier; a second quantifier (a lazy
    one, or nothing to repeat) is not in the fragment. *)
Definition quantified (a : regex) (ts : list token) : option (regex * list token) :=
  match ts with
  | TStar :: ts' => unquantified (Star a) ts'
  | TPlus :: ts' => unquantified (Plus a) ts'
  | TQuest :: ts' => unquantified (Opt a) ts'
  | _ => Some (a, ts)
  end.

Fixpoint parse_disjunction (fuel : nat) (ts : list token) {struct fuel}
  : option (regex * list token) :=
  match fuel with
  | O => None
  | S fuel' =>
      match parse_alternative fuel' ts with
      | Some (a, TBar :: ts') =>
          match parse_disjunction fuel' ts' with
          | Some (d, ts'') => Some (Alt a d, ts'')
          | None => None
          end
      | other => other
      end
  end
with parse_alternative (fuel : nat) (ts : list token) {struct fuel}
  : option (regex * list token) :=
  match fuel with
  | O => None
  | S fuel' =>
      match ts with
      | [] | TBar :: _ | TClose :: _ => Some (Empty, ts)
      | _ =>
          match parse_term fuel' ts with
          | Some (t, ts') =>
              match parse_alternative fuel' ts' with
              | Some (r, ts'') => Some (Seq t r, ts'')
              | None => None
              end
          | None => None
          end
      end
  end
with parse_term (fuel : nat) (ts : list token) {struct fuel}
  : option (regex * list token) :=
  match fuel with
  | O => None
  | S fuel' =>
      match ts with
      | TCaret :: ts' => unquantified AssertStart ts'
      | TDollar :: ts' => unquantified AssertEnd ts'
      | TChar c :: ts' => quantified (Char c) ts'
      | TDot :: ts' => quantified Dot ts'
      | TOpen :: ts' =>
          match parse_disjunction fuel' ts' with
          | Some (d, TClose :: ts'') => quantified (Group d) ts''
          | _ => None
          end
      | _ => None
      end
  end.

(** [new RegExp(pattern)]; [None] is a [SyntaxError] or a pattern outside
    the fragment.  Every call descends at most three levels per token. *)
Definition RegExp_new (pattern : string) : option regex :=
  match tokenize pattern with
  | Some ts =>
      match parse_disjunction (3 * List.length ts + 3) ts with
      | Some (r, []) => Some r
      | _ => None
      end
  | None => None
  end.

(** *** Matching: backtracking, as a list of successes

    A state is the rest of the input together with whether the current
    position is index 0.  [run r st] lists the states in which a match of
    [r] started at [st] can end, in the order backtracking tries them. *)

Definition state : Type := (bool * string)%type.

Definition is_line_terminator (c : ascii) : bool :=
  (c =? "010")%char || (c =? "013")%char.

(** An iteration of a quantifier whose minimum is met must consume input. *)
Definition progress (st st' : state) : bool :=
  negb (String.length (snd st') =? String.length (snd st))%nat.

Fixpoint iterate (step : state -> list state) (fuel : nat) (st : state) : list state :=
  match fuel with
  | O => [st]
  | S fuel' => (flat_map (iterate step fuel') (filter (progress st) (step st)) ++ [st])%list
  end.

Fixpoint run (r : regex) (st : state) : list state :=
  match r with
  | Empty => [st]
  | Char c =>
      match snd st with
      | String d rest => if (c =? d)%char then [(false, rest)] else []
      | EmptyString => []
      end
  | Dot =>
      match snd st with
      | String d rest => if is_line_terminator d then [] else [(false, rest)]
      | EmptyString => []
      end
  | AssertStart => if fst st then [st] else []
  | AssertEnd =>
      match snd st with
      | EmptyString => [st]
      | String _ _ => []
      end
  | Seq r1 r2 => flat_map (run r2) (run r1 st)
  | Alt r1 r2 => (run r1 st ++ run r2 st)%list
  | Star r' => iterate (run r') (S (String.length (snd st))) st
  | Plus r' =>
      flat_map (fun st' => iterate (run r') (S (String.length (snd st'))) st') (run r' st)
  | Opt r' => (filter (progress st) (run r' st) ++ [st])%list
  | Group r' => run r' st
  end.

(** [RegExp.prototype.test] without the global or sticky flag: the first
    index, from 0 up to the length of the input, at which the pattern
    matches. *)
Fixpoint search (r : regex) (atStart : bool) (input : string) : bool :=
  match run r (atStart, input) with
  | _ :: _ => true
  | [] =>
      match input with
      | EmptyString => false
      | String _ rest => search r false rest
      end
  end.

Definition test (r : regex) (s : string) : bool := search r true s.

(** ** Values *)

(** A number that is a safe integer (of magnitude below 2^53, where the
    decimal expansion is what [String] and [JSON.stringify] print), an
    infinity or NaN. *)
Inductive number : Type :=
| Int (z : Z)
| PosInfinity
| NegInfinity
| NaN.

Inductive value : Type :=
| JUndefined
| JNull
| JBool (b : bool)
| JNum (n : number)
| JStr (s : string)
| JRegExp (r : regex)
| JArray (items : list value).

Definition string_of_Z (z : Z) : string :=
  NilZero.string_of_int (Z.to_int z).

(** [String(n)] for a number. *)
Definition Number_toString (n : number) : string :=
  match n with
  | Int z => string_of_Z z
  | PosInfinity => "Infinity"
  | NegInfinity => "-Infinity"
  | NaN => "NaN"
  end.

(** [String(v)].  [Array.prototype.toString] is [join(",")], which prints
    undefined and null elements as the empty string. *)
Fixpoint ToString (v : value) : string :=
  match v with
  | JUndefined => "undefined"
  | JNull => "null"
  | JBool true => "true"
  | JBool false => "false"
  | JNum n => Number_toString n
  | JStr s => s
  | JRegExp r => "/" ++ source r ++ "/"
  | JArray items =>
      join "," (map (fun x =>
                       match x with
                       | JUndefined | JNull => EmptyString
                       | _ => ToString x
                       end) items)
  end.

(** [v.toString()]: a property access on undefined or null throws. *)
Definition toString (v : value) : result string :=
  match v with
  | JUndefined | JNull => Throw TypeError
  | _ => Ok (ToString v)
  end.

(** [!!v] *)
Definition truthy (v : value) : bool :=
  match v with
  | JUndefined | JNull => false
  | JBool b => b
  | JNum (Int z) => negb (z =? 0)%Z
  | JNum NaN => false
  | JNum _ => true
  | JStr s => negb (s =? "")%string
  | JRegExp _ | JArray _ => true
  end.

(** [v instanceof RegExp] *)
Definition instanceof_RegExp (v : value) : bool :=
  match v with
  | JRegExp _ => true
  | _ => false
  end.

(** ** helpers.js: the matcher compiler *)

Definition pluginName : string := "moment-timezone-data-webpack-plugin".

(** [RegExp.escape] as the file defines it where the platform has none:
    every character of the class gets a backslash in front
    ([replace(/[\\^$*+?.()|[\]{}]/g, '\\$&')]).  Its argument here is always
    the string [value.toString()] returns. *)
Fixpoint RegExp_escape (s : string) : string :=
  match s with
  | EmptyString => EmptyString
  | String c s' =>
      if is_syntax_char c
      then String backslash (String c (RegExp_escape s'))
      else String c (RegExp_escape s')
  end.

(** The literal [/.?/]. *)
Definition match_anything : regex := Seq (Opt Dot) Empty.

Definition exactRegExp (pattern : string) : result regex :=
  match RegExp_new ("^(?:" ++ pattern ++ ")$") with
  | Some r => Ok r
  | None => Throw SyntaxError
  end.

Definition arrayRegExp (arr : list value) : result regex :=
  (escaped <- map_result
                (fun v => s <- toString v ;; Ok (RegExp_escape s)) arr ;;
   exactRegExp (join "|" escaped))%result.

(** The [forEach] of [createMatchers]: each element is pushed on [ret] when
    it is a RegExp and on [strings] otherwise. *)
Definition partition_step (acc : list regex * list value) (mz : value)
  : list regex * list value :=
  match mz with
  | JRegExp r => ((fst acc ++ [r])%list, snd acc)
  | _ => (fst acc, (snd acc ++ [mz])%list)
  end.

Definition createMatchers (matchItems : value) : result (list regex) :=
  if negb (truthy matchItems) then Ok [match_anything]
  else
    match matchItems with
    | JRegExp r => Ok [r]
    | JArray items =>
        let hasRegExp := existsb instanceof_RegExp items in
        if negb hasRegExp then
          (r <- arrayRegExp items ;; Ok [r])%result
        else
          let '(ret, strings) := fold_left partition_step items ([], []) in
          match strings with
          | [] => Ok ret
          | _ :: _ => (r <- arrayRegExp strings ;; Ok (ret ++ [r])%list)%result
          end
    | _ =>
        (s <- toString matchItems ;;
         r <- exactRegExp (RegExp_escape s) ;;
         Ok [r])%result
    end.

(** ** helpers.js: the match evaluator *)

(** What a caller passes for [regExpMatchers] or [extraMatchers]. *)
Inductive matchers : Type :=
| MUndefined
| MNull
| MArray (l : list regex).

(** [anyMatch(item, regExpMatchers)]: the body below the first [if], which
    is what both recursive calls run, their third argument being
    undefined. *)
Definition anyMatch1 (item : string) (regExpMatchers : matchers) : bool :=
  match regExpMatchers with
  | MUndefined | MNull => true
  | MArray [] => true
  | MArray l => existsb (fun matcher => test matcher item) l
  end.

Definition anyMatch (item : string) (regExpMatchers extraMatchers : matchers) : bool :=
  match extraMatchers with
  | MUndefined => anyMatch1 item regExpMatchers
  | _ => anyMatch1 item regExpMatchers && anyMatch1 item extraMatchers
  end.

(** ** [JSON.stringify] *)

Definition hex_digits : list ascii := list_ascii_of_string "0123456789abcdef".

Definition hex_digit (n : nat) : ascii := nth n hex_digits "0"%char.

Definition hex_byte (n : nat) : string :=
  String (hex_digit (n / 16)) (String (hex_digit (n mod 16)) EmptyString).

(** One code unit inside a JSON string literal. *)
Definition JSON_quote_char (c : ascii) : string :=
  let n := nat_of_ascii c in
  if (c =? dquote)%char then String backslash (String dquote EmptyString)
  else if (c =? backslash)%char then "\\"
  else if (n =? 8)%nat then "\b"
  else if (n =? 9)%nat then "\t"
  else if (n =? 10)%nat then "\n"
  else if (n =? 12)%nat then "\f"
  else if (n =? 13)%nat then "\r"
  else if (n <? 32)%nat then "\u00" ++ hex_byte n
  else String c EmptyString.

Fixpoint JSON_quote_body (s : string) : string :=
  match s with
  | EmptyString => EmptyString
  | String c s' => JSON_quote_char c ++ JSON_quote_body s'
  end.

Definition JSON_quote (s : string) : string :=
  String dquote (JSON_quote_body s ++ String dquote EmptyString).

(** A finite number prints as [String] prints it; the others as [null]. *)
Definition JSON_number (n : number) : string :=
  match n with
  | Int z => string_of_Z z
  | _ => "null"
  end.

(** [JSON.stringify(v)]; [None] is the result [undefined].  A RegExp is an
    object without enumerable properties of its own. *)
Fixpoint JSON_stringify (v : value) : option string :=
  match v with
  | JUndefined => None
  | JNull => Some "null"
  | JBool true => Some "true"
  | JBool false => Some "false"
  | JNum n => Some (JSON_number n)
  | JStr s => Some (JSON_quote s)
  | JRegExp _ => Some "{}"
  | JArray items =>
      Some ("[" ++ join "," (map (fun x =>
                                    match JSON_stringify x with
                                    | Some s => s
                                    | None => "null"
                                    end) items) ++ "]")
  end.

(** An object literal, as its properties in the order they are written; a
    property whose value is undefined is left out. *)
Definition JSON_member (kv : string * value) : list string :=
  match JSON_stringify (snd kv) with
  | Some s => [JSON_quote (fst kv) ++ ":" ++ s]
  | None => []
  end.

Definition JSON_stringify_object (props : list (string * value)) : string :=
  "{" ++ join "," (flat_map JSON_member props) ++ "}".

(** ** helpers.js: the fingerprint *)

Record tzdata : Type := { version : value }.

(** The configuration object, through the four properties [helpers.js]
    reads: each holds a value of any shape. *)
Record config : Type := {
  matchZones : value;
  matchCountries : value;
  startYear : value;
  endYear : value
}.

Definition cacheKey_object (t : tzdata) (c : config) : list (string * value) :=
  [ ("version", version t);
    ("zones", JStr (ToString (matchZones c)));
    ("countries", JStr (ToString (matchCountries c)));
    ("dates", JArray [startYear c; endYear c]) ].

Definition cacheKey (t : tzdata) (c : config) : string :=
  JSON_stringify_object (cacheKey_object t c).

(** ** [crypto.createHash('md5').update(key).digest('hex')] *)

Module MD5.
Local Open Scope Z_scope.

Definition mask32 (x : Z) : Z := Z.land x 0xffffffff.
Definition add32 (x y : Z) : Z := mask32 (x + y).
Definition not32 (x : Z) : Z := Z.lxor x 0xffffffff.
Definition rotl32 (x c : Z) : Z :=
  mask32 (Z.lor (Z.shiftl x c) (Z.shiftr x (32 - c))).

Definition K : list Z :=
  [ 0xd76aa478; 0xe8c7b756; 0x242070db; 0xc1bdceee;
    0xf57c0faf; 0x4787c62a; 0xa8304613; 0xfd469501;
    0x698098d8; 0x8b44f7af; 0xffff5bb1; 0x895cd7be;
    0x6b901122; 0xfd987193; 0xa679438e; 0x49b40821;
    0xf61e2562; 0xc040b340; 0x265e5a51; 0xe9b6c7aa;
    0xd62f105d; 0x02441453; 0xd8a1e681; 0xe7d3fbc8;
    0x21e1cde6; 0xc33707d6; 0xf4d50d87; 0x455a14ed;
    0xa9e3e905; 0xfcefa3f8; 0x676f02d9; 0x8d2a4c8a;
    0xfffa3942; 0x8771f681; 0x6d9d6122; 0xfde5380c;
    0xa4beea44; 0x4bdecfa9; 0xf6bb4b60; 0xbebfbc70;
    0x289b7ec6; 0xeaa127fa; 0xd4ef3085; 0x04881d05;
    0xd9d4d039; 0xe6db99e5; 0x1fa27cf8; 0xc4ac5665;
    0xf4292244; 0x432aff97; 0xab9423a7; 0xfc93a039;
    0x655b59c3; 0x8f0ccc92; 0xffeff47d; 0x85845dd1;
    0x6fa87e4f; 0xfe2ce6e0; 0xa3014314; 0x4e0811a1;
    0xf7537e82; 0xbd3af235; 0x2ad7d2bb; 0xeb86d391 ].

Definition shifts : list Z :=
  [ 7; 12; 17; 22; 7; 12; 17; 22; 7; 12; 17; 22; 7; 12; 17; 22;
    5; 9; 14; 20; 5; 9; 14; 20; 5; 9; 14; 20; 5; 9; 14; 20;
    4; 11; 16; 23; 4; 11; 16; 23; 4; 11; 16; 23; 4; 11; 16; 23;
    6; 10; 15; 21; 6; 10; 15; 21; 6; 10; 15; 21; 6; 10; 15; 21 ].

Definition at_index (l : list Z) (i : Z) : Z := nth (Z.to_nat i) l 0.

Definition words : Type := (Z * Z * Z * Z)%type.

Definition init : words := (0x67452301, 0xefcdab89, 0x98badcfe, 0x10325476).

Definition step (M : list Z) (st : words) (i : Z) : words :=
  let '(a, b, c, d) := st in
  let '(f, g) :=
    if i <? 16 then (Z.lor (Z.land b c) (Z.land (not32 b) d), i)
    else if i <? 32 then (Z.lor (Z.land d b) (Z.land (not32 d) c), (5 * i + 1) mod 16)
    else if i <? 48 then (Z.lxor (Z.lxor b c) d, (3 * i + 5) mod 16)
    else (Z.lxor c (Z.lor b (not32 d)), (7 * i) mod 16) in
  let f' := add32 (add32 (add32 f a) (at_index K i)) (at_index M g) in
  (d, add32 b (rotl32 f' (at_index shifts i)), b, c).

(** Bytes to 32-bit words, little-endian. *)
Fixpoint words_le (bytes : list Z) : list Z :=
  match bytes with
  | b0 :: b1 :: b2 :: b3 :: rest =>
      (b0 + 256 * (b1 + 256 * (b2 + 256 * b3))) :: words_le rest
  | _ => []
  end.

Definition compress (st : words) (chunk : list Z) : words :=
  let M := words_le chunk in
  let '(a0, b0, c0, d0) := st in
  let '(a, b, c, d) := fold_left (step M) (map Z.of_nat (seq 0 64)) st in
  (add32 a0 a, add32 b0 b, add32 c0 c, add32 d0 d).

Fixpoint chunks (fuel : nat) (bytes : list Z) : list (list Z) :=
  match fuel, bytes with
  | S fuel', _ :: _ => firstn 64 bytes :: chunks fuel' (skipn 64 bytes)
  | _, _ => []
  end.

Definition le_bytes (n : nat) (x : Z) : list Z :=
  map (fun k => Z.shiftr x (8 * Z.of_nat k) mod 256) (seq 0 n).

Definition pad (msg : list Z) : list Z :=
  let len := Z.of_nat (List.length msg) in
  (msg ++ [0x80] ++ repeat 0 (Z.to_nat ((55 - len) mod 64)) ++ le_bytes 8 (8 * len))%list.

Definition digest (msg : list Z) : list Z :=
  let padded := pad msg in
  let '(a, b, c, d) := fold_left compress (chunks (List.length padded) padded) init in
  (le_bytes 4 a ++ le_bytes 4 b ++ le_bytes 4 c ++ le_bytes 4 d)%list.

(** [update(key)] takes the string as UTF-8. *)
Definition utf8_char (c : ascii) : list Z :=
  let n := Z.of_nat (nat_of_ascii c) in
  if n <? 128 then [n] else [192 + n / 64; 128 + n mod 64].

Fixpoint utf8 (s : string) : list Z :=
  match s with
  | EmptyString => []
  | String c s' => (utf8_char c ++ utf8 s')%list
  end.

Fixpoint hex (bytes : list Z) : string :=
  match bytes with
  | [] => EmptyString
  | b :: bs => (hex_byte (Z.to_nat b) ++ hex bs)%string
  end.

Definition md5_hex (s : string) : string := hex (digest (utf8 s)).

End MD5.

(** ** POSIX [path.join] *)

Fixpoint split_slash (s : string) : list string :=
  match s with
  | EmptyString => [EmptyString]
  | String c s' =>
      if (c =? "/")%char then EmptyString :: split_slash s'
      else
        match split_slash s' with
        | seg :: segs => String c seg :: segs
        | [] => [String c EmptyString]
        end
  end.

(** One segment of [normalizeString]; [res] is the stack of segments kept
    so far, the last one first. *)
Definition normalize_step (allowAboveRoot : bool) (res : list string) (seg : string)
  : list string :=
  if (seg =? "")%string || (seg =? ".")%string then res
  else if (seg =? "..")%string then
    match res with
    | last :: res' =>
        if (last =? "..")%string
        then (if allowAboveRoot then ".." :: res else res)
        else res'
    | [] => if allowAboveRoot then [".."] else []
    end
  else seg :: res.

Definition normalizeString (p : string) (allowAboveRoot : bool) : string :=
  join "/" (rev (fold_left (normalize_step allowAboveRoot) (split_slash p) [])).

Definition starts_with_slash (p : string) : bool :=
  match p with
  | String c _ => (c =? "/")%char
  | EmptyString => false
  end.

Fixpoint ends_with_slash (p : string) : bool :=
  match p with
  | EmptyString => false
  | String c EmptyString => (c =? "/")%char
  | String _ p' => ends_with_slash p'
  end.

Definition path_normalize (p : string) : string :=
  match p with
  | EmptyString => "."
  | _ =>
      let isAbsolute := starts_with_slash p in
      let trailingSeparator := ends_with_slash p in
      match normalizeString p (negb isAbsolute) with
      | EmptyString =>
          if isAbsolute then "/" else if trailingSeparator then "./" else "."
      | q =>
          (if isAbsolute then "/" else "") ++ q ++ (if trailingSeparator then "/" else "")
      end
  end.

Definition path_join (a b : string) : string :=
  match filter (fun s => negb (s =? "")%string) [a; b] with
  | [] => "."
  | parts => path_normalize (join "/" parts)
  end.

(** ** The file system and the closure of [autoGeneratedCacheDir] *)

(** What [findCacheDir({ name: pluginName, create: true })] does in the
    environment: it returns a directory it has created, returns undefined,
    or throws. *)
Inductive find_outcome : Type :=
| Found (dir : string)
| NotFound
| Fails.

Record World : Type := {
  entries : list string;        (* the paths that exist *)
  forbidden : list string;      (* directories [mkdir.sync] may not create *)
  findCacheDir_outcome : find_outcome;
  os_tmpdir : string;
  cacheDirPath : option string  (* the variable [autoGeneratedCacheDir] closes over *)
}.

Definition add_entry (p : string) (w : World) : World :=
  {| entries := if existsb (String.eqb p) (entries w) then entries w else p :: entries w;
     forbidden := forbidden w;
     findCacheDir_outcome := findCacheDir_outcome w;
     os_tmpdir := os_tmpdir w;
     cacheDirPath := cacheDirPath w |}.

Definition set_cacheDirPath (p : option string) (w : World) : World :=
  {| entries := entries w;
     forbidden := forbidden w;
     findCacheDir_outcome := findCacheDir_outcome w;
     os_tmpdir := os_tmpdir w;
     cacheDirPath := p |}.

(** A computation that reads and changes the world and may throw. *)
Definition IO (A : Type) : Type := World -> result (A * World).

Definition ret {A : Type} (a : A) : IO A := fun w => Ok (a, w).

Definition bind {A B : Type} (m : IO A) (k : A -> IO B) : IO B :=
  fun w =>
    match m w with
    | Ok (a, w') => k a w'
    | Throw e => Throw e
    end.

Definition throw {A : Type} (e : exn) : IO A := fun _ => Throw e.

Definition try_catch {A : Type} (body : IO A) (handler : exn -> IO A) : IO A :=
  fun w =>
    match body w with
    | Ok r => Ok r
    | Throw e => handler e w
    end.

Declare Scope io_scope.
Delimit Scope io_scope with io.
Notation "x <- m ;; k" := (bind m (fun x => k))
  (at level 61, m at next level, right associativity) : io_scope.
Notation "m ;; k" := (bind m (fun _ => k))
  (at level 61, right associativity) : io_scope.

(** A path argument that is truthy: a non-empty string. *)
Definition truthy_path (p : option string) : bool :=
  match p with
  | Some (String _ _) => true
  | _ => false
  end.

Definition mkdir_sync (p : option string) : IO unit :=
  fun w =>
    match p with
    | None => Throw TypeError
    | Some d =>
        if existsb (String.eqb d) (forbidden w) then Throw (EACCES d)
        else Ok (tt, add_entry d w)
    end.

Definition fs_existsSync (p : string) : IO bool :=
  fun w => Ok (existsb (String.eqb p) (entries w), w).

Definition findCacheDir : IO (option string) :=
  fun w =>
    match findCacheDir_outcome w with
    | Found d => Ok (Some d, add_entry d w)
    | NotFound => Ok (None, w)
    | Fails => Throw FindCacheDirError
    end.

Definition get_tmpdir : IO string := fun w => Ok (os_tmpdir w, w).
Definition get_cacheDirPath : IO (option string) := fun w => Ok (cacheDirPath w, w).
Definition assign_cacheDirPath (p : option string) : IO unit :=
  fun w => Ok (tt, set_cacheDirPath p w).

(** ** helpers.js: the cache resolver *)

Definition autoGeneratedCacheDir : IO string :=
  (memo <- get_cacheDirPath ;;
   (if negb (truthy_path memo) then
      try_catch
        (found <- findCacheDir ;; assign_cacheDirPath found)
        (fun _ => tmp <- get_tmpdir ;;
                  assign_cacheDirPath (Some (path_join tmp pluginName)))
    else ret tt) ;;
   dir <- get_cacheDirPath ;;
   mkdir_sync dir ;;
   match dir with
   | Some d => ret d
   | None => throw TypeError
   end)%io.

Definition cacheDir (cacheDirPath : option string) : IO string :=
  if truthy_path cacheDirPath then
    (mkdir_sync cacheDirPath ;;
     match cacheDirPath with
     | Some d => ret d
     | None => throw TypeError
     end)%io
  else autoGeneratedCacheDir.

Record descriptor : Type := { path : string; exists_ : bool }.

Definition cacheFile (t : tzdata) (c : config) (cacheDirPath : option string)
  : IO descriptor :=
  let key := cacheKey t c in
  let filename := MD5.md5_hex key ++ ".json" in
  (dir <- cacheDir cacheDirPath ;;
   let filepath := path_join dir filename in
   found <- fs_existsSync filepath ;;
   ret {| path := filepath; exists_ := found |})%io.

(** ** helpers.js: [flatMap] and [unique] *)

(** A mapper is called with the element, its index and the array, and may
    throw. *)
Definition mapper : Type := value -> nat -> list value -> result value.

(** [Array.prototype.flatMap] on a dense array and with a mapper that
    returns no sparse array: the result of the mapper is spliced in when it
    is an array (one level deep) and appended otherwise.  Arrays are lists
    here: a hole, which the native method skips where the [for...of] of the
    fallback reads undefined, is not represented, nor is the [this] the
    fallback passes on. *)
Fixpoint Array_flatMap_from (f : mapper) (source : list value) (k : nat)
  (l : list value) : result (list value) :=
  match l with
  | [] => Ok []
  | x :: l' =>
      (r <- f x k source ;;
       rest <- Array_flatMap_from f source (S k) l' ;;
       Ok (match r with
           | JArray things => things
           | _ => [r]
           end ++ rest)%list)%result
  end.

(** The [forEach] of the fallback: [ret] is the array built so far. *)
Fixpoint flatMap_forEach (f : mapper) (source : list value) (k : nat)
  (l : list value) (ret : list value) : result (list value) :=
  match l with
  | [] => Ok ret
  | x :: l' =>
      (r <- f x k source ;;
       flatMap_forEach f source (S k) l'
         (match r with
          | JArray things => fold_left (fun ret thing => ret ++ [thing])%list things ret
          | _ => (ret ++ [r])%list
          end))%result
  end.

(** [flatMap(arr, mapper)]; [has_flatMap] is
    [typeof arr.flatMap === 'function']. *)
Definition flatMap (has_flatMap : bool) (arr : list value) (f : mapper)
  : result (list value) :=
  if has_flatMap then Array_flatMap_from f arr 0 arr
  else flatMap_forEach f arr 0 arr [].

Definition number_eqb (n1 n2 : number) : bool :=
  match n1, n2 with
  | Int z1, Int z2 => (z1 =? z2)%Z
  | PosInfinity, PosInfinity | NegInfinity, NegInfinity | NaN, NaN => true
  | _, _ => false
  end.

(** The comparison a [Set] uses.  Primitives are compared by value, NaN
    being the same as NaN; objects by identity, and the model has none, so
    an array or a RegExp element stands for an object of its own, the same
    as no other element. *)
Definition SameValueZero (a b : value) : bool :=
  match a, b with
  | JUndefined, JUndefined | JNull, JNull => true
  | JBool x, JBool y => Bool.eqb x y
  | JNum x, JNum y => number_eqb x y
  | JStr x, JStr y => (x =? y)%string
  | _, _ => false
  end.

(** [set.add(x)], the set being the list of its elements in insertion
    order. *)
Definition Set_add (elements : list value) (x : value) : list value :=
  if existsb (SameValueZero x) elements then elements else (elements ++ [x])%list.

(** What iterating over a string yields: its characters, as strings. *)
Fixpoint string_iterator (s : string) : list value :=
  match s with
  | EmptyString => []
  | String c s' => JStr (String c EmptyString) :: string_iterator s'
  end.

(** [unique(items)]: [Array.from(new Set(items))] for an array or a string,
    the empty array for anything else. *)
Definition unique (items : value) : list value :=
  match items with
  | JArray l => fold_left Set_add l []
  | JStr s => fold_left Set_add (string_iterator s) []
  | _ => []
  end.

(** ** Vocabulary of the statements *)

(** The pattern that matches the string [s] literally. *)
Fixpoint lit (s : string) : regex :=
  match s with
  | EmptyString => Empty
  | String c s' => Seq (Char c) (lit s')
  end.

(** The alternation of the literals of [l], as the parser nests it. *)
Fixpoint alts (l : list string) : regex :=
  match l with
  | [] => Empty
  | [s] => lit s
  | s :: l' => Alt (lit s) (alts l')
  end.

(** [^(?:d)$] *)
Definition anchored (d : regex) : regex :=
  Seq AssertStart (Seq (Group d) (Seq AssertEnd Empty)).

Fixpoint lit_tokens (s : string) : list token :=
  match s with
  | EmptyString => []
  | String c s' => TChar c :: lit_tokens s'
  end.

Fixpoint alts_tokens (l : list string) : list token :=
  match l with
  | [] => []
  | [s] => lit_tokens s
  | s :: l' => (lit_tokens s ++ TBar :: alts_tokens l')%list
  end.

(** A token at which an alternative ends. *)
Definition stops (ts : list token) : Prop :=
  match ts with
  | [] | TBar :: _ | TClose :: _ => True
  | _ => False
  end.

(** A token at which a disjunction ends. *)
Definition closes (ts : list token) : Prop :=
  match ts with
  | [] | TClose :: _ => True
  | _ => False
  end.

(** A match of [r] that starts at index 0 and ends at the end of the input. *)
Definition full_match (r : regex) (input : string) : Prop :=
  exists st, In st (run r (true, input)) /\ snd st = EmptyString.

(** Neither undefined nor null: a value that has a [toString] method. *)
Definition defined (v : value) : bool :=
  match v with
  | JUndefined | JNull => false
  | _ => true
  end.

(** The RegExp elements of an array, in order, and the others. *)
Definition regexps (items : list value) : list regex :=
  flat_map (fun v => match v with JRegExp r => [r] | _ => [] end) items.

Definition plain (items : list value) : list value :=
  filter (fun v => negb (instanceof_RegExp v)) items.

Definition is_hex_digit (c : ascii) : bool := existsb (Ascii.eqb c) hex_digits.

(** The literal [/^Europe\//]. *)
Definition europe : regex :=
  Seq AssertStart (lit "Europe/").

Fixpoint string_forallb (p : ascii -> bool) (s : string) : bool :=
  match s with
  | EmptyString => true
  | String c s' => p c && string_forallb p s'
  end.

(** Two configurations that are built differently and print alike. *)
Definition config_joined (countries : value) (startYear endYear : number) : config :=
  {| matchZones := JArray [JStr "a,b"]; matchCountries := countries;
     startYear := JNum startYear; endYear := JNum endYear |}.

Definition config_split (countries : value) (startYear endYear : number) : config :=
  {| matchZones := JArray [JStr "a"; JStr "b"]; matchCountries := countries;
     startYear := JNum startYear; endYear := JNum endYear |}.

(** [typeof v === 'number'] *)
Definition is_number (v : value) : bool :=
  match v with
  | JNum _ => true
  | _ => false
  end.

(** What [JSON.stringify] writes for an element of an array. *)
Definition JSON_element (v : value) : string :=
  match JSON_stringify v with
  | Some s => s
  | None => "null"
  end.

(** An environment in which [findCacheDir] throws. *)
Definition unsupported_world : World :=
  {| entries := []; forbidden := []; findCacheDir_outcome := Fails;
     os_tmpdir := "/tmp"; cacheDirPath := None |}.

(** A value that is no object. *)
Definition primitive (v : value) : bool :=
  match v with
  | JRegExp _ | JArray _ => false
  | _ => true
  end.

(** What a [Set] is built from: the elements of an array, the characters
    of a string. *)
Definition iterated (items : value) : list value :=
  match items with
  | JArray l => l
  | JStr s => string_iterator s
  | _ => []
  end.

(** The last occurrence of every element, in order. *)
Fixpoint last_occurrences (l : list value) : list value :=
  match l with
  | [] => []
  | x :: l' =>
      if existsb (SameValueZero x) l' then last_occurrences l'
      else x :: last_occurrences l'
  end.

(** The first occurrence of every element, in order. *)
Definition first_occurrences (l : list value) : list value :=
  rev (last_occurrences (rev l)).

(** What [flatMap] adds for one result of the mapper. *)
Definition spliced (r : value) : list value :=
  match r with
  | JArray things => things
  | _ => [r]
  end.

(** The elements of an array, each with its index. *)
Definition indexed (arr : list value) : list (nat * value) :=
  combine (seq 0 (List.length arr)) arr.

(** An array that holds undefined or null among its plain elements. *)
Definition has_undefined_plain (v : value) : bool :=
  match v with
  | JArray items => negb (forallb defined (plain items))
  | _ => false
  end.

(** [fs.existsSync(p)] as a test on the world. *)
Definition exists_in (p : string) (w : World) : bool :=
  existsb (String.eqb p) (entries w).

Definition fallback_dir (w : World) : string :=
  path_join (os_tmpdir w) pluginName.

(** The directory [autoGeneratedCacheDir] settles on: the memoized one if
    there is one, else what the environment gives. *)
Definition default_dir (w : World) : option string :=
  if truthy_path (cacheDirPath w) then cacheDirPath w
  else
    match findCacheDir_outcome w with
    | Found d => Some d
    | NotFound => None
    | Fails => Some (fallback_dir w)
    end.

(** The world once [autoGeneratedCacheDir] has filled its variable. *)
Definition memoized (w : World) : World :=
  if truthy_path (cacheDirPath w) then w
  else
    match findCacheDir_outcome w with
    | Found d => set_cacheDirPath (Some d) (add_entry d w)
    | NotFound => set_cacheDirPath None w
    | Fails => set_cacheDirPath (Some (fallback_dir w)) w
    end.

(** The cache root [cacheDir] settles on, and the world in which it creates
    it. *)
Definition root_dir (root : option string) (w : World) : option string :=
  if truthy_path root then root else default_dir w.

Definition prepared (root : option string) (w : World) : World :=
  if truthy_path root then w else memoized w.

(** The same world in another environment: [findCacheDir] and
    [os.tmpdir] answer differently. *)
Definition in_environment (outcome : find_outcome) (tmp : string) (w : World) : World :=
  {| entries := entries w;
     forbidden := forbidden w;
     findCacheDir_outcome := outcome;
     os_tmpdir := tmp;
     cacheDirPath := cacheDirPath w |}.

(** Reading back one code unit of a JSON string literal: the inverse of
    [JSON_quote_char], with the rest of the text. *)
Fixpoint index_of (c : ascii) (l : list ascii) : option nat :=
  match l with
  | [] => None
  | x :: l' => if (c =? x)%char then Some 0 else option_map S (index_of c l')
  end.

Definition JSON_unquote_char (s : string) : option (ascii * string) :=
  match s with
  | EmptyString => None
  | String a rest =>
      if (a =? dquote)%char then None
      else if (a =? backslash)%char then
        match rest with
        | EmptyString => None
        | String b rest' =>
            if (b =? dquote)%char then Some (dquote, rest')
            else if (b =? backslash)%char then Some (backslash, rest')
            else if (b =? "b")%char then Some ("008"%char, rest')
            else if (b =? "t")%char then Some ("009"%char, rest')
            else if (b =? "n")%char then Some ("010"%char, rest')
            else if (b =? "f")%char then Some ("012"%char, rest')
            else if (b =? "r")%char then Some ("013"%char, rest')
            else if (b =? "u")%char then
              match rest' with
              | String _ (String _ (String h (String l r))) =>
                  match index_of h hex_digits, index_of l hex_digits with
                  | Some x, Some y => Some (ascii_of_nat (16 * x + y), r)
                  | _, _ => None
                  end
              | _ => None
              end
            else None
        end
      else Some (a, rest)
  end.

(** A number that is no infinity and not NaN. *)
Definition finite (n : number) : bool :=
  match n with
  | Int _ => true
  | _ => false
  end.

(** No character that ends a number in the fingerprint. *)
Definition number_char (c : ascii) : bool :=
  negb (c =? ",")%char && negb (c =? "]")%char.

(** A path segment that [normalizeString] keeps as it is: not empty, not
    [.] or [..], and without a slash. *)
Definition no_slash (s : string) : bool :=
  string_forallb (fun c => negb (c =? "/")%char) s.

Definition clean_segment (s : string) : bool :=
  negb (s =? "")%string && negb (s =? ".")%string && negb (s =? "..")%string
  && no_slash s.

(** The absolute path made of segments. *)
Definition absolute (segments : list string) : string :=
  String "/" (join "/" segments).

(** * Properties *)

(** ** Strings *)

Lemma append_assoc (a b c : string) : (a ++ b) ++ c = a ++ (b ++ c).
Proof. induction a as [|x a IH]; simpl; [reflexivity | now rewrite IH]. Qed.

Lemma append_nil_r (a : string) : a ++ EmptyString = a.
Proof. induction a as [|x a IH]; simpl; [reflexivity | now rewrite IH]. Qed.

Lemma append_length (a b : string) :
  String.length (a ++ b) = String.length a + String.length b.
Proof. induction a as [|x a IH]; simpl; [reflexivity | now rewrite IH]. Qed.

(** ** The parser on escaped text *)

Lemma plain_char (c : ascii) :
  is_syntax_char c = false ->
  (c =? backslash)%char = false /\ (c =? "(")%char = false /\
  single_token c = Some (TChar c).
Proof.
  intro H. unfold single_token. rewrite H.
  unfold is_syntax_char, syntax_chars in H. simpl in H.
  repeat match type of H with
         | (_ || _)%bool = false =>
             apply orb_false_elim in H; let E := fresh "E" in destruct H as [E H]
         end.
  unfold backslash.
  repeat match goal with E : (_ =? _)%char = false |- _ => rewrite E; clear E end.
  auto.
Qed.

Lemma option_map_app_nil {A : Type} (o : option (list A)) :
  option_map (app []) o = o.
Proof. destruct o; reflexivity. Qed.

Lemma option_map_cons_app {A : Type} (x : A) (l : list A) (o : option (list A)) :
  option_map (cons x) (option_map (app l) o) = option_map (app (x :: l)) o.
Proof. destruct o; reflexivity. Qed.

Lemma tokenize_escape (s t : string) :
  tokenize (RegExp_escape s ++ t) = option_map (app (lit_tokens s)) (tokenize t).
Proof.
  induction s as [|c s IH]; simpl.
  - now rewrite option_map_app_nil.
  - destruct (is_syntax_char c) eqn:E.
    + simpl. rewrite E. simpl. rewrite IH. apply option_map_cons_app.
    + destruct (plain_char c E) as (E1 & E2 & E3).
      simpl. rewrite E1, E2, E3, IH. apply option_map_cons_app.
Qed.

Lemma tokenize_join (l : list string) (t : string) :
  tokenize (join "|" (map RegExp_escape l) ++ t)
  = option_map (app (alts_tokens l)) (tokenize t).
Proof.
  induction l as [|s l IH].
  - simpl. now rewrite option_map_app_nil.
  - destruct l as [|s' l].
    + simpl. apply tokenize_escape.
    + change (join "|" (map RegExp_escape (s :: s' :: l)))
        with (RegExp_escape s ++ "|" ++ join "|" (map RegExp_escape (s' :: l))).
      rewrite append_assoc, tokenize_escape.
      change (("|" ++ join "|" (map RegExp_escape (s' :: l))) ++ t)
        with (String "|" (join "|" (map RegExp_escape (s' :: l)) ++ t)).
      cbn [tokenize]. change (("|" =? backslash)%char) with false.
      change (("|" =? "(")%char) with false.
      change (single_token "|") with (Some TBar).
      cbv iota. rewrite IH.
      change (alts_tokens (s :: s' :: l))
        with (lit_tokens s ++ TBar :: alts_tokens (s' :: l))%list.
      destruct (tokenize t); simpl; [|reflexivity].
      now rewrite <- app_assoc.
Qed.

Lemma quantified_stops (a : regex) (s : string) (rest : list token) :
  stops rest ->
  quantified a (lit_tokens s ++ rest) = Some (a, (lit_tokens s ++ rest)%list).
Proof.
  destruct s; simpl; [|reflexivity].
  destruct rest as [|[] rest]; simpl; intro H; try contradiction; reflexivity.
Qed.

Lemma parse_alternative_lit (s : string) :
  forall (rest : list token) (fuel : nat),
    stops rest -> String.length s < fuel ->
    parse_alternative fuel (lit_tokens s ++ rest) = Some (lit s, rest).
Proof.
  induction s as [|c s IH]; intros rest fuel Hs Hf.
  - destruct fuel as [|fuel]; [lia|].
    destruct rest as [|[] rest]; simpl in *; try contradiction; reflexivity.
  - destruct fuel as [|fuel]; simpl in Hf; [lia|].
    assert (Ht : parse_term fuel (TChar c :: lit_tokens s ++ rest)
                 = Some (Char c, (lit_tokens s ++ rest)%list)).
    { destruct fuel as [|fuel]; [lia|].
      cbn [parse_term]. now apply quantified_stops. }
    cbn [lit_tokens app parse_alternative].
    rewrite Ht, IH by (assumption || lia). reflexivity.
Qed.

Lemma parse_disjunction_alts (l : list string) :
  forall (rest : list token) (fuel : nat),
    closes rest -> S (List.length (alts_tokens l)) < fuel ->
    parse_disjunction fuel (alts_tokens l ++ rest) = Some (alts l, rest).
Proof.
  induction l as [|s l IH]; intros rest fuel Hc Hf.
  - destruct fuel as [|[|fuel]]; simpl in Hf; try lia.
    destruct rest as [|[] rest]; simpl in *; try contradiction; reflexivity.
  - destruct fuel as [|fuel]; [lia|].
    destruct l as [|s' l].
    + cbn [alts_tokens alts parse_disjunction].
      assert (Hlen : List.length (lit_tokens s) = String.length s)
        by (clear; induction s; simpl; congruence).
      simpl in Hf. rewrite parse_alternative_lit.
      * destruct rest as [|[] rest]; simpl in *; try contradiction; reflexivity.
      * destruct rest as [|[] rest]; simpl in *; try contradiction; exact I.
      * lia.
    + change (alts_tokens (s :: s' :: l))
        with (lit_tokens s ++ TBar :: alts_tokens (s' :: l))%list in *.
      assert (Hlen : List.length (lit_tokens s) = String.length s)
        by (clear; induction s; simpl; congruence).
      rewrite length_app in Hf. cbn [List.length] in Hf.
      rewrite <- app_assoc. cbn [parse_disjunction].
      rewrite parse_alternative_lit by (simpl; auto; lia).
      change ((TBar :: alts_tokens (s' :: l)) ++ rest)%list
        with (TBar :: (alts_tokens (s' :: l) ++ rest))%list.
      cbv iota beta.
      rewrite IH by (assumption || lia). reflexivity.
Qed.

(** [new RegExp] compiles the pattern [exactRegExp] builds from escaped
    strings joined by [|] to the anchored alternation of the literals. *)
Lemma RegExp_new_exact (l : list string) :
  RegExp_new ("^(?:" ++ join "|" (map RegExp_escape l) ++ ")$")
  = Some (anchored (alts l)).
Proof.
  unfold RegExp_new.
  assert (Ht : tokenize ("^(?:" ++ join "|" (map RegExp_escape l) ++ ")$")
               = Some (TCaret :: TOpen :: alts_tokens l ++ [TClose; TDollar])%list).
  { change ("^(?:" ++ join "|" (map RegExp_escape l) ++ ")$")
      with (String "^" (String "(" (String "?" (String ":"
              (join "|" (map RegExp_escape l) ++ ")$"))))).
    cbn [tokenize]. change (("^" =? backslash)%char) with false.
    change (("^" =? "(")%char) with false.
    change (single_token "^") with (Some TCaret).
    change (("(" =? backslash)%char) with false.
    change (("(" =? "(")%char) with true.
    change ((("?" =? "?")%char && (":" =? ":")%char)%bool) with true.
    cbv iota. rewrite tokenize_join. reflexivity. }
  rewrite Ht.
  set (body := alts_tokens l).
  assert (Hfuel : exists k, 3 * List.length (TCaret :: TOpen :: body ++ [TClose; TDollar]) + 3
                            = S (S (S (S k))) /\ S (List.length body) < k).
  { exists (3 * List.length body + 11). simpl List.length.
    rewrite length_app. simpl List.length. lia. }
  destruct Hfuel as (k & -> & Hk).
  assert (Hend : parse_term k [TDollar] = Some (AssertEnd, [])
                 /\ parse_alternative k [] = Some (Empty, [])).
  { destruct k as [|k]; [lia|]. split; reflexivity. }
  destruct Hend as [Hterm Halt].
  cbn [parse_disjunction parse_alternative parse_term unquantified is_quantifier app].
  unfold body. rewrite parse_disjunction_alts by (simpl; auto; lia).
  cbn [quantified parse_alternative]. rewrite Hterm, Halt.
  reflexivity.
Qed.

(** ** What the compiled patterns match *)

Lemma search_anchored_false (d : regex) (x : string) :
  search (anchored d) false x = false.
Proof. induction x as [|c x IH]; simpl; auto. Qed.

Lemma run_anchored (d : regex) (input : string) (st : state) :
  In st (run (anchored d) (true, input))
  <-> In st (run d (true, input)) /\ snd st = EmptyString.
Proof.
  unfold anchored. cbn [run fst flat_map]. rewrite app_nil_r.
  rewrite in_flat_map. split.
  - intros (mid & Hmid & Hst). rewrite in_flat_map in Hst.
    destruct Hst as (e & He & Hst).
    destruct (snd mid) eqn:E; simpl in He; [|contradiction].
    destruct He as [<-|[]]. simpl in Hst. destruct Hst as [<-|[]]. auto.
  - intros [Hin E]. exists st. split; [assumption|].
    rewrite in_flat_map. exists st. rewrite E. simpl. auto.
Qed.

Lemma test_anchored (d : regex) (input : string) :
  test (anchored d) input = true <-> full_match d input.
Proof.
  unfold test, full_match.
  assert (H : search (anchored d) true input = true
              <-> exists st, In st (run (anchored d) (true, input))).
  { destruct input as [|c input]; cbn [search];
      destruct (run (anchored d) (true, _)) as [|st l] eqn:E.
    - split; [discriminate | intros (st & [])].
    - split; [exists st; now left | reflexivity].
    - rewrite search_anchored_false. split; [discriminate | intros (st & [])].
    - split; [exists st; now left | reflexivity]. }
  rewrite H. split; intros (st & Hst); exists st; now apply run_anchored.
Qed.

Lemma run_lit_sound (s : string) :
  forall st st', In st' (run (lit s) st) -> snd st = s ++ snd st'.
Proof.
  induction s as [|c s IH]; intros st st' H.
  - simpl in H. destruct H as [<-|[]]. reflexivity.
  - cbn [lit run] in H. rewrite in_flat_map in H.
    destruct H as (mid & Hmid & H).
    destruct (snd st) as [|d rest]; [contradiction|].
    destruct (Ascii.eqb_spec c d) as [->|]; [|contradiction].
    destruct Hmid as [<-|[]]. apply IH in H. simpl in *. now rewrite H.
Qed.

Lemma run_lit_complete (s : string) :
  forall (b : bool) (rest : string),
  exists b', In (b', rest) (run (lit s) (b, s ++ rest)).
Proof.
  induction s as [|c s IH]; intros b rest.
  - exists b. now left.
  - destruct (IH false rest) as (b' & Hb'). exists b'.
    cbn [lit run snd append]. rewrite Ascii.eqb_refl. simpl.
    rewrite app_nil_r. assumption.
Qed.

Lemma full_match_lit (s input : string) :
  full_match (lit s) input <-> input = s.
Proof.
  split.
  - intros (st & Hin & E). apply run_lit_sound in Hin.
    simpl in Hin. now rewrite Hin, E, append_nil_r.
  - intros ->. destruct (run_lit_complete s true EmptyString) as (b' & H).
    rewrite append_nil_r in H. now exists (b', EmptyString).
Qed.

Lemma full_match_alts (l : list string) (input : string) :
  l <> [] -> (full_match (alts l) input <-> In input l).
Proof.
  induction l as [|s l IH]; intros Hne; [congruence|].
  destruct l as [|s' l].
  - cbn [alts]. rewrite full_match_lit. simpl. intuition congruence.
  - change (alts (s :: s' :: l)) with (Alt (lit s) (alts (s' :: l))).
    assert (IH' := IH ltac:(discriminate)). clear IH.
    unfold full_match in *. cbn [run]. split.
    + intros (st & Hin & E). apply in_app_or in Hin. destruct Hin as [Hin|Hin].
      * left. symmetry. apply full_match_lit. now exists st.
      * right. apply IH'. now exists st.
    + intros [<-|Hin].
      * destruct (proj2 (full_match_lit s s) eq_refl) as (st & Hst & E).
        exists st. split; [apply in_or_app; now left | assumption].
      * destruct (proj2 IH' Hin) as (st & Hst & E).
        exists st. split; [apply in_or_app; now right | assumption].
Qed.

(** [/.?/] matches at index 0 of every input. *)
Lemma test_match_anything (s : string) : test match_anything s = true.
Proof.
  unfold test, match_anything.
  destruct s as [|c s]; cbn [search run flat_map snd].
  - reflexivity.
  - destruct (filter _ _); reflexivity.
Qed.

(** ** The escape *)

Lemma RegExp_escape_app (s1 s2 : string) :
  RegExp_escape (s1 ++ s2) = RegExp_escape s1 ++ RegExp_escape s2.
Proof.
  induction s1 as [|c s1 IH]; simpl; [reflexivity|].
  destruct (is_syntax_char c); simpl; now rewrite IH.
Qed.

Lemma RegExp_escape_syntax_char (c : ascii) (s1 s2 : string) :
  In c syntax_chars ->
  RegExp_escape (s1 ++ String c s2)
  = RegExp_escape s1 ++ String backslash (String c (RegExp_escape s2)).
Proof.
  intro H. rewrite RegExp_escape_app. cbn [RegExp_escape].
  replace (is_syntax_char c) with true; [reflexivity|].
  symmetry. apply existsb_exists. exists c. split; [assumption | apply Ascii.eqb_refl].
Qed.

(** ** [arrayRegExp] and the [forEach] of [createMatchers] *)

Lemma map_result_escape (arr : list value) :
  forallb defined arr = true ->
  map_result (fun v => s <- toString v ;; Ok (RegExp_escape s))%result arr
  = Ok (map RegExp_escape (map ToString arr)).
Proof.
  induction arr as [|v arr IH]; intro H; [reflexivity|].
  simpl in H. apply andb_prop in H. destruct H as [Hv Harr].
  cbn [map_result map]. rewrite (IH Harr).
  destruct v; try discriminate; reflexivity.
Qed.

Lemma map_result_throws (arr : list value) :
  forallb defined arr = false ->
  map_result (fun v => s <- toString v ;; Ok (RegExp_escape s))%result arr
  = Throw TypeError.
Proof.
  induction arr as [|v arr IH]; intro H; [discriminate|].
  simpl in H. cbn [map_result].
  destruct (defined v) eqn:Hv.
  - simpl in H. rewrite (IH H). destruct v; try discriminate; reflexivity.
  - destruct v; try discriminate; reflexivity.
Qed.

Lemma arrayRegExp_defined (arr : list value) :
  forallb defined arr = true ->
  arrayRegExp arr = Ok (anchored (alts (map ToString arr))).
Proof.
  intro H. unfold arrayRegExp. rewrite (map_result_escape arr H).
  cbn [bind_result]. unfold exactRegExp. now rewrite RegExp_new_exact.
Qed.

Lemma arrayRegExp_throws (arr : list value) :
  forallb defined arr = false -> arrayRegExp arr = Throw TypeError.
Proof.
  intro H. unfold arrayRegExp. now rewrite (map_result_throws arr H).
Qed.

Lemma fold_partition (items : list value) :
  forall (ret : list regex) (strings : list value),
    fold_left partition_step items (ret, strings)
    = ((ret ++ regexps items)%list, (strings ++ plain items)%list).
Proof.
  induction items as [|v items IH]; intros ret strings.
  - simpl. now rewrite !app_nil_r.
  - cbn [fold_left]. unfold partition_step at 2.
    destruct v; cbn [fst snd]; rewrite IH;
      unfold regexps, plain; cbn [flat_map filter instanceof_RegExp negb];
      now rewrite <- ?app_assoc.
Qed.

Lemma no_RegExp_plain (items : list value) :
  existsb instanceof_RegExp items = false ->
  plain items = items /\ regexps items = [].
Proof.
  induction items as [|v items IH]; intro H; [split; reflexivity|].
  simpl in H. apply orb_false_elim in H. destruct H as [Hv H].
  destruct (IH H) as [IH1 IH2]. unfold plain, regexps in *.
  cbn [filter flat_map]. rewrite Hv, IH1. cbn [negb].
  destruct v; try discriminate; simpl; now rewrite ?IH2.
Qed.

(** What [createMatchers] does on an array with at least one element: the
    RegExp elements in order, then the matcher of the plain elements if
    there are any. *)
Lemma createMatchers_array (items : list value) :
  items <> [] ->
  createMatchers (JArray items)
  = match plain items with
    | [] => Ok (regexps items)
    | _ :: _ => (r <- arrayRegExp (plain items) ;; Ok (regexps items ++ [r])%list)%result
    end.
Proof.
  intro Hne. unfold createMatchers. cbn [truthy negb].
  destruct (existsb instanceof_RegExp items) eqn:E; cbn [negb].
  - rewrite fold_partition. cbn [app]. reflexivity.
  - destruct (no_RegExp_plain items E) as [-> ->].
    destruct items; [congruence | reflexivity].
Qed.

(** * The matcher compiler *)

Example europe_literal : RegExp_new "^Europe\/" = Some europe.
Proof. reflexivity. Qed.

Example match_anything_literal : RegExp_new ".?" = Some match_anything.
Proof. reflexivity. Qed.

(** C1, as stated, fails: for the empty array [createMatchers] does not
    return the empty set but a set of one matcher. *)
Lemma createMatchers_empty_array_is_not_empty :
  (exists r, createMatchers (JArray []) = Ok [r])
  /\ createMatchers (JArray []) <> Ok [].
Proof.
  split; [eexists; reflexivity | discriminate].
Qed.

(** C1, amended: for the empty array [createMatchers] takes the shortcut
    for arrays without a RegExp and returns one matcher, the anchored empty
    alternation [^(?:)$], which matches the empty string and nothing
    else. *)
Theorem createMatchers_empty_array :
  createMatchers (JArray []) = Ok [anchored Empty]
  /\ RegExp_new "^(?:)$" = Some (anchored Empty)
  /\ forall s, test (anchored Empty) s = true <-> s = EmptyString.
Proof.
  split; [reflexivity|]. split; [reflexivity|].
  intro s. rewrite test_anchored. apply (full_match_lit EmptyString s).
Qed.

(** C7: for undefined and for null [createMatchers] returns exactly one
    matcher, [/.?/], and it matches every string. *)
Theorem createMatchers_absent :
  createMatchers JUndefined = Ok [match_anything]
  /\ createMatchers JNull = Ok [match_anything]
  /\ List.length [match_anything] = 1
  /\ forall s, test match_anything s = true.
Proof.
  repeat split. apply test_match_anything.
Qed.

(** C5: a truthy value that is neither a RegExp nor an array compiles to
    one matcher, built from the pattern [^(?:escaped)$] where [escaped] is
    the value's string form with a backslash put before every character of
    [\ ^ $ * + ? . ( ) | [ ] { }]; the matcher matches the string form and
    nothing else. *)
Theorem createMatchers_single_value (v : value) :
  truthy v = true ->
  instanceof_RegExp v = false ->
  (forall items, v <> JArray items) ->
  exists r,
    createMatchers v = Ok [r]
    /\ RegExp_new ("^(?:" ++ RegExp_escape (ToString v) ++ ")$") = Some r
    /\ (forall s, test r s = true <-> s = ToString v)
    /\ (forall c s1 s2,
           In c (list_ascii_of_string "\^$*+?.()|[]{}") ->
           RegExp_escape (s1 ++ String c s2)
           = RegExp_escape s1 ++ String backslash (String c (RegExp_escape s2))).
Proof.
  intros Ht Hr Ha.
  exists (anchored (lit (ToString v))).
  assert (Hnew : RegExp_new ("^(?:" ++ RegExp_escape (ToString v) ++ ")$")
                 = Some (anchored (lit (ToString v))))
    by apply (RegExp_new_exact [ToString v]).
  assert (Hto : toString v = Ok (ToString v))
    by (destruct v; try discriminate; reflexivity).
  repeat split.
  - unfold createMatchers. rewrite Ht. cbn [negb].
    destruct v as [| |b|n|s|r|items];
      try discriminate; try (now elim (Ha items));
      rewrite Hto; cbn [bind_result]; unfold exactRegExp; now rewrite Hnew.
  - assumption.
  - intro H. apply test_anchored, full_match_lit in H. assumption.
  - intros ->. now apply test_anchored, full_match_lit.
  - intros c s1 s2 Hc. now apply RegExp_escape_syntax_char.
Qed.

Lemma createMatchers_single_value_witness :
  exists r,
    createMatchers (JStr "a.b") = Ok [r]
    /\ RegExp_new "^(?:a\.b)$" = Some r
    /\ test r "a.b" = true
    /\ test r "axb" = false.
Proof.
  destruct (createMatchers_single_value (JStr "a.b")) as (r & H1 & H2 & H3 & _).
  - reflexivity.
  - reflexivity.
  - discriminate.
  - exists r. split; [exact H1|]. split; [exact H2|]. split.
    + apply H3. reflexivity.
    + destruct (test r "axb") eqn:E; [|reflexivity].
      apply H3 in E. discriminate E.
Defined.

(** C6, as stated, fails: an array of non-RegExp values may hold null (or
    undefined), on which [value.toString()] throws. *)
Lemma createMatchers_plain_array_null_throws :
  [JNull] <> []
  /\ existsb instanceof_RegExp [JNull] = false
  /\ createMatchers (JArray [JNull]) = Throw TypeError.
Proof.
  split; [discriminate|]. split; reflexivity.
Qed.

(** C6, amended: a non-empty array without a RegExp, none of whose elements
    is undefined or null, compiles to exactly one matcher, the anchored
    alternation of the escaped string forms, which matches exactly the
    string forms of the elements. *)
Theorem createMatchers_plain_array (items : list value) :
  items <> [] ->
  existsb instanceof_RegExp items = false ->
  forallb defined items = true ->
  exists r,
    createMatchers (JArray items) = Ok [r]
    /\ RegExp_new ("^(?:" ++ join "|" (map RegExp_escape (map ToString items)) ++ ")$")
       = Some r
    /\ forall s, test r s = true <-> In s (map ToString items).
Proof.
  intros Hne Hno Hdef.
  exists (anchored (alts (map ToString items))).
  destruct (no_RegExp_plain items Hno) as [Hplain Hre].
  split; [|split].
  - rewrite createMatchers_array by assumption.
    rewrite Hplain, Hre, (arrayRegExp_defined items Hdef).
    destruct items; [congruence | reflexivity].
  - apply RegExp_new_exact.
  - intro s. rewrite test_anchored. apply full_match_alts.
    destruct items; [congruence | discriminate].
Qed.

Lemma createMatchers_plain_array_witness :
  exists r,
    createMatchers (JArray [JStr "a"; JStr "b"; JStr "c"]) = Ok [r]
    /\ RegExp_new "^(?:a|b|c)$" = Some r
    /\ test r "a" = true /\ test r "b" = true /\ test r "c" = true
    /\ test r "ab" = false /\ test r "" = false.
Proof.
  destruct (createMatchers_plain_array [JStr "a"; JStr "b"; JStr "c"])
    as (r & H1 & H2 & H3).
  - discriminate.
  - reflexivity.
  - reflexivity.
  - exists r. split; [exact H1|]. split; [exact H2|].
    repeat split; try (apply H3; simpl; tauto);
      match goal with
      | |- test r ?x = false =>
          destruct (test r x) eqn:E; [|reflexivity];
          apply H3 in E; simpl in E;
          repeat (destruct E as [E|E]; try discriminate E); contradiction
      end.
Defined.

(** C4, as stated, fails: a plain element next to a RegExp may be null (or
    undefined), and then [createMatchers] throws. *)
Lemma createMatchers_mixed_array_null_throws :
  existsb instanceof_RegExp [JRegExp europe; JNull] = true
  /\ createMatchers (JArray [JRegExp europe; JNull]) = Throw TypeError.
Proof.
  split; reflexivity.
Qed.

(** C4, amended: for a non-empty array whose plain (non-RegExp) elements
    are neither undefined nor null, the result holds every RegExp element
    unchanged, in the order of the array, followed by exactly one anchored
    matcher for the string forms of all plain elements when there is a
    plain element; so it has as many matchers as there are RegExp
    elements, plus one if a plain element exists. *)
Theorem createMatchers_mixed_array (items : list value) :
  items <> [] ->
  forallb defined (plain items) = true ->
  exists combined,
    createMatchers (JArray items) = Ok (regexps items ++ combined)%list
    /\ map JRegExp (regexps items) = filter instanceof_RegExp items
    /\ match plain items with
       | [] => combined = []
       | _ :: _ =>
           exists r,
             combined = [r]
             /\ RegExp_new ("^(?:" ++ join "|" (map RegExp_escape
                                                    (map ToString (plain items))) ++ ")$")
                = Some r
             /\ forall s, test r s = true <-> In s (map ToString (plain items))
       end
    /\ List.length (regexps items ++ combined)%list
       = List.length (filter instanceof_RegExp items)
         + (if existsb (fun v => negb (instanceof_RegExp v)) items then 1 else 0).
Proof.
  intros Hne Hdef.
  assert (Hord : map JRegExp (regexps items) = filter instanceof_RegExp items).
  { clear. induction items as [|v items IH]; [reflexivity|].
    unfold regexps in *. destruct v; cbn [flat_map filter instanceof_RegExp app map];
      now rewrite ?IH. }
  assert (Hex : existsb (fun v => negb (instanceof_RegExp v)) items
                = match plain items with [] => false | _ :: _ => true end).
  { clear. induction items as [|v items IH]; [reflexivity|].
    unfold plain in *. cbn [existsb filter].
    destruct (negb (instanceof_RegExp v)); [reflexivity | exact IH]. }
  assert (Hlen : List.length (regexps items) = List.length (filter instanceof_RegExp items))
    by (rewrite <- Hord; now rewrite length_map).
  rewrite createMatchers_array by assumption. rewrite Hex.
  destruct (plain items) as [|p ps] eqn:Hp.
  - exists []. rewrite app_nil_r. repeat split; auto. lia.
  - rewrite (arrayRegExp_defined (p :: ps) Hdef). cbn [bind_result].
    exists [anchored (alts (map ToString (p :: ps)))].
    split; [reflexivity|]. split; [assumption|]. split.
    + eexists. split; [reflexivity|]. split; [apply RegExp_new_exact|].
      intro s. rewrite test_anchored. apply full_match_alts. discriminate.
    + rewrite length_app. simpl. lia.
Qed.

Lemma createMatchers_mixed_array_witness :
  exists utc,
    createMatchers (JArray [JRegExp europe; JStr "UTC"]) = Ok [europe; utc]
    /\ List.length [europe; utc] = 2
    /\ test europe "Europe/Paris" = true
    /\ forall s, test utc s = true <-> s = "UTC".
Proof.
  destruct (createMatchers_mixed_array [JRegExp europe; JStr "UTC"])
    as (combined & H1 & _ & H3 & _).
  - discriminate.
  - reflexivity.
  - cbn [plain filter instanceof_RegExp negb] in H3.
    destruct H3 as (r & -> & _ & Hr).
    exists r. split; [exact H1|]. split; [reflexivity|]. split; [reflexivity|].
    intro s. rewrite Hr. simpl. intuition congruence.
Defined.

(** * The match evaluator *)

(** C2: with the primary set alone, [anyMatch] is true for an absent or
    empty set and otherwise true exactly when some matcher of the set
    matches the candidate; with a secondary set it is the conjunction of
    the two one-set answers. *)
Theorem anyMatch_semantics (item : string) (primary : matchers) :
  (anyMatch item primary MUndefined = true
   <-> match primary with
       | MUndefined | MNull | MArray [] => True
       | MArray l => exists matcher, In matcher l /\ test matcher item = true
       end)
  /\ (forall secondary,
         secondary <> MUndefined ->
         anyMatch item primary secondary
         = anyMatch item primary MUndefined && anyMatch item secondary MUndefined).
Proof.
  split.
  - unfold anyMatch, anyMatch1.
    destruct primary as [| |[|m l]]; try tauto.
    rewrite existsb_exists. tauto.
  - intros [| |l] H; [congruence | reflexivity | reflexivity].
Qed.

(** * The fingerprint *)

Lemma string_of_Z_is_no_word (z : Z) :
  string_of_Z z <> "Infinity" /\ string_of_Z z <> "-Infinity" /\ string_of_Z z <> "NaN".
Proof.
  unfold string_of_Z.
  destruct (Z.to_int z) as [d|d]; destruct d as [|d|d|d|d|d|d|d|d|d|d];
    repeat split; try discriminate;
    destruct d; discriminate.
Qed.

(** What [JSON.stringify] prints for a number is determined by what
    [String] prints for it. *)
Lemma JSON_number_of_string_form (n1 n2 : number) :
  Number_toString n1 = Number_toString n2 -> JSON_number n1 = JSON_number n2.
Proof.
  destruct n1 as [z1| | |], n2 as [z2| | |]; simpl; intro H;
    try reflexivity; try assumption; exfalso;
    try (destruct (string_of_Z_is_no_word z1) as (A & B & C); congruence);
    destruct (string_of_Z_is_no_word z2) as (A & B & C); congruence.
Qed.

Lemma cacheKey_of_string_forms (t : tzdata) (c1 c2 : config) :
  is_number (startYear c1) = true -> is_number (endYear c1) = true ->
  is_number (startYear c2) = true -> is_number (endYear c2) = true ->
  ToString (matchZones c1) = ToString (matchZones c2) ->
  ToString (matchCountries c1) = ToString (matchCountries c2) ->
  ToString (startYear c1) = ToString (startYear c2) ->
  ToString (endYear c1) = ToString (endYear c2) ->
  cacheKey t c1 = cacheKey t c2.
Proof.
  intros Ns1 Ne1 Ns2 Ne2 Hz Hc Hs He.
  unfold cacheKey, cacheKey_object, JSON_stringify_object.
  cbn [flat_map JSON_member JSON_stringify fst snd map].
  destruct (startYear c1) as [| | |s1| | |]; try discriminate Ns1.
  destruct (endYear c1) as [| | |e1| | |]; try discriminate Ne1.
  destruct (startYear c2) as [| | |s2| | |]; try discriminate Ns2.
  destruct (endYear c2) as [| | |e2| | |]; try discriminate Ne2.
  cbn [ToString] in Hs, He. cbn [JSON_stringify].
  now rewrite Hz, Hc, (JSON_number_of_string_form _ _ Hs),
    (JSON_number_of_string_form _ _ He).
Qed.

(** The text of the fingerprint: the properties in the order of the object
    literal, a version that is undefined being left out. *)
Lemma cacheKey_serialized (t : tzdata) (c : config) :
  cacheKey t c
  = "{" ++ match JSON_stringify (version t) with
           | Some v => JSON_quote "version" ++ ":" ++ v ++ ","
           | None => EmptyString
           end
    ++ JSON_quote "zones" ++ ":" ++ JSON_quote (ToString (matchZones c))
    ++ "," ++ JSON_quote "countries" ++ ":" ++ JSON_quote (ToString (matchCountries c))
    ++ "," ++ JSON_quote "dates" ++ ":" ++ "["
    ++ JSON_element (startYear c) ++ "," ++ JSON_element (endYear c) ++ "]" ++ "}".
Proof.
  unfold cacheKey, cacheKey_object, JSON_stringify_object, JSON_element.
  cbn [flat_map JSON_member JSON_stringify fst snd map].
  unfold JSON_member at 1. cbn [fst snd].
  destruct (JSON_stringify (version t)) as [v|]; cbn [app join];
    now rewrite !append_assoc.
Qed.

Lemma cacheFile_of_cacheKey (t : tzdata) (c1 c2 : config) :
  cacheKey t c1 = cacheKey t c2 ->
  forall root w, cacheFile t c1 root w = cacheFile t c2 root w.
Proof.
  intros H root w. unfold cacheFile. now rewrite H.
Qed.

(** C3, as stated, fails: a year given as the string "2000" has the
    string form of the number 2000, and [JSON.stringify] writes the two
    differently, so the fingerprints differ. *)
Lemma fingerprint_differs_for_a_string_year :
  let t := {| version := JStr "2023a" |} in
  let c1 := {| matchZones := JStr "UTC"; matchCountries := JUndefined;
               startYear := JNum (Int 2000); endYear := JNum (Int 2020) |} in
  let c2 := {| matchZones := JStr "UTC"; matchCountries := JUndefined;
               startYear := JStr "2000"; endYear := JNum (Int 2020) |} in
  ToString (matchZones c1) = ToString (matchZones c2)
  /\ ToString (matchCountries c1) = ToString (matchCountries c2)
  /\ ToString (startYear c1) = ToString (startYear c2)
  /\ ToString (endYear c1) = ToString (endYear c2)
  /\ cacheKey t c1 <> cacheKey t c2.
Proof.
  repeat split. vm_compute. discriminate.
Qed.

(** C3, amended: for a given version, two configurations whose year bounds
    are numbers and whose filter specifications and year bounds have the
    same string forms have the same fingerprint, and so resolve to the same
    cache file; the fingerprint is the text of the properties version,
    zones, countries and dates, in this order. *)
Theorem fingerprint_of_string_forms (t : tzdata) (c1 c2 : config) :
  is_number (startYear c1) = true -> is_number (endYear c1) = true ->
  is_number (startYear c2) = true -> is_number (endYear c2) = true ->
  ToString (matchZones c1) = ToString (matchZones c2) ->
  ToString (matchCountries c1) = ToString (matchCountries c2) ->
  ToString (startYear c1) = ToString (startYear c2) ->
  ToString (endYear c1) = ToString (endYear c2) ->
  cacheKey t c1 = cacheKey t c2
  /\ cacheKey t c1
     = "{" ++ match JSON_stringify (version t) with
              | Some v => JSON_quote "version" ++ ":" ++ v ++ ","
              | None => EmptyString
              end
       ++ JSON_quote "zones" ++ ":" ++ JSON_quote (ToString (matchZones c1))
       ++ "," ++ JSON_quote "countries" ++ ":"
       ++ JSON_quote (ToString (matchCountries c1))
       ++ "," ++ JSON_quote "dates" ++ ":" ++ "["
       ++ JSON_element (startYear c1) ++ "," ++ JSON_element (endYear c1)
       ++ "]" ++ "}"
  /\ map fst (cacheKey_object t c1) = ["version"; "zones"; "countries"; "dates"]
  /\ map fst (cacheKey_object t c2) = ["version"; "zones"; "countries"; "dates"]
  /\ forall root w, cacheFile t c1 root w = cacheFile t c2 root w.
Proof.
  intros Ns1 Ne1 Ns2 Ne2 Hz Hc Hs He.
  assert (Hk := cacheKey_of_string_forms t c1 c2 Ns1 Ne1 Ns2 Ne2 Hz Hc Hs He).
  split; [exact Hk|]. split; [apply cacheKey_serialized|].
  repeat split. now apply cacheFile_of_cacheKey.
Qed.

Lemma fingerprint_of_string_forms_witness :
  let t := {| version := JStr "2023a" |} in
  let c1 := {| matchZones := JArray [JStr "Europe/Paris"; JStr "UTC"];
               matchCountries := JUndefined;
               startYear := JNum (Int 2000); endYear := JNum PosInfinity |} in
  let c2 := {| matchZones := JStr "Europe/Paris,UTC";
               matchCountries := JStr "undefined";
               startYear := JNum (Int 2000); endYear := JNum PosInfinity |} in
  cacheKey t c1 = cacheKey t c2
  /\ forall root w, cacheFile t c1 root w = cacheFile t c2 root w.
Proof.
  intros t c1 c2.
  destruct (fingerprint_of_string_forms t c1 c2) as (H1 & _ & _ & _ & H2);
    try reflexivity.
  split; assumption.
Defined.

(** C10: a configuration whose zone filter is the array of the one string
    "a,b" and one whose zone filter is the array of "a" and "b" are
    different configurations, compile to matchers that accept different
    names, and still have the same fingerprint and the same cache file. *)
Theorem cacheKey_collision (t : tzdata) (countries : value) (startYear endYear : number) :
  let c1 := config_joined countries startYear endYear in
  let c2 := config_split countries startYear endYear in
  c1 <> c2
  /\ cacheKey t c1 = cacheKey t c2
  /\ (forall root w, cacheFile t c1 root w = cacheFile t c2 root w)
  /\ (exists r1 r2,
         createMatchers (matchZones c1) = Ok [r1]
         /\ createMatchers (matchZones c2) = Ok [r2]
         /\ test r1 "a" = false /\ test r2 "a" = true).
Proof.
  intros c1 c2.
  assert (Hk : cacheKey t c1 = cacheKey t c2) by reflexivity.
  split; [discriminate|]. split; [exact Hk|].
  split; [now apply cacheFile_of_cacheKey|].
  do 2 eexists. repeat split.
Qed.

(** * The cache resolver *)

Lemma hex_digit_is_hex (n : nat) : is_hex_digit (hex_digit n) = true.
Proof.
  unfold hex_digit, is_hex_digit.
  destruct (nth_in_or_default n hex_digits "0"%char) as [H | ->]; [|reflexivity].
  apply existsb_exists. eexists. split; [exact H | apply Ascii.eqb_refl].
Qed.

Lemma hex_length (bytes : list Z) :
  String.length (MD5.hex bytes) = 2 * List.length bytes.
Proof.
  induction bytes as [|b bytes IH]; [reflexivity|].
  cbn [MD5.hex hex_byte append String.length List.length]. rewrite IH. lia.
Qed.

Lemma hex_is_hex (bytes : list Z) :
  string_forallb is_hex_digit (MD5.hex bytes) = true.
Proof.
  induction bytes as [|b bytes IH]; [reflexivity|].
  cbn [MD5.hex hex_byte append string_forallb].
  now rewrite !hex_digit_is_hex, IH.
Qed.

Lemma le_bytes_length (n : nat) (x : Z) : List.length (MD5.le_bytes n x) = n.
Proof. unfold MD5.le_bytes. now rewrite length_map, length_seq. Qed.

(** An MD5 digest has 16 bytes, whatever the message. *)
Lemma digest_length (msg : list Z) : List.length (MD5.digest msg) = 16.
Proof.
  unfold MD5.digest.
  destruct (fold_left MD5.compress _ MD5.init) as [[[a b] c] d].
  now rewrite !length_app, !le_bytes_length.
Qed.

Example md5_of_the_empty_string :
  MD5.md5_hex "" = "d41d8cd98f00b204e9800998ecf8427e".
Proof. vm_compute. reflexivity. Qed.

Example md5_of_abc :
  MD5.md5_hex "abc" = "900150983cd24fb0d6963f7d28e17f72".
Proof. vm_compute. reflexivity. Qed.

(** C8: the descriptor's path is the cache root that [cacheDir] returns
    joined with the file name made of the hex MD5 digest of the
    fingerprint (32 hex digits, 128 bits) and the extension [.json]; its
    flag is what [fs.existsSync] answers for that path once the root is
    there.  A failure of [cacheDir] is the failure of [cacheFile]. *)
Theorem cacheFile_descriptor (t : tzdata) (c : config) (root : option string) (w : World) :
  let stem := MD5.md5_hex (cacheKey t c) in
  match cacheDir root w with
  | Ok (dir, w') =>
      exists found,
        fs_existsSync (path_join dir (stem ++ ".json")) w' = Ok (found, w')
        /\ cacheFile t c root w
           = Ok ({| path := path_join dir (stem ++ ".json"); exists_ := found |}, w')
  | Throw e => cacheFile t c root w = Throw e
  end
  /\ 4 * String.length stem = 128
  /\ string_forallb is_hex_digit stem = true.
Proof.
  intro stem. split; [|split].
  - unfold cacheFile, bind. fold stem.
    destruct (cacheDir root w) as [[dir w']|e]; [|reflexivity].
    eexists. split; reflexivity.
  - unfold stem, MD5.md5_hex. now rewrite hex_length, digest_length.
  - apply hex_is_hex.
Qed.

Example cacheFile_in_override :
  cacheFile {| version := JStr "2023a" |} (config_split JUndefined (Int 2000) (Int 2020))
    (Some "/cache") unsupported_world
  = Ok ({| path := "/cache/5567dd1ddba2e32ad49fbd72ea418674.json"; exists_ := false |},
        add_entry "/cache" unsupported_world).
Proof. vm_compute. reflexivity. Qed.

(** C9: without an override and with nothing memoized, when [findCacheDir]
    throws, [cacheDir] memoizes the temporary directory joined with the
    plugin name and goes on with it: the result is that of creating this
    directory, never the exception of [findCacheDir]; where the directory
    can be created, it is the root [cacheDir] returns and the directory of
    the path [cacheFile] returns. *)
Theorem cacheDir_fallback (root : option string) (w : World) :
  truthy_path root = false ->
  truthy_path (cacheDirPath w) = false ->
  findCacheDir_outcome w = Fails ->
  let fallback := path_join (os_tmpdir w) pluginName in
  cacheDir root w
  = match mkdir_sync (Some fallback) (set_cacheDirPath (Some fallback) w) with
    | Ok (_, w') => Ok (fallback, w')
    | Throw e => Throw e
    end
  /\ cacheDir root w <> Throw FindCacheDirError
  /\ (existsb (String.eqb fallback) (forbidden w) = false ->
      cacheDir root w
      = Ok (fallback, add_entry fallback (set_cacheDirPath (Some fallback) w))
      /\ forall t c, exists found w',
           cacheFile t c root w
           = Ok ({| path := path_join fallback (MD5.md5_hex (cacheKey t c) ++ ".json");
                    exists_ := found |}, w')).
Proof.
  intros Hroot Hmemo Hfind fallback.
  assert (Hdir : cacheDir root w
                 = match mkdir_sync (Some fallback) (set_cacheDirPath (Some fallback) w) with
                   | Ok (_, w') => Ok (fallback, w')
                   | Throw e => Throw e
                   end).
  { unfold cacheDir. rewrite Hroot.
    unfold autoGeneratedCacheDir, bind, get_cacheDirPath.
    rewrite Hmemo. cbn [negb].
    unfold try_catch, bind, findCacheDir. rewrite Hfind.
    unfold get_tmpdir, assign_cacheDirPath. cbn [set_cacheDirPath cacheDirPath].
    fold fallback.
    destruct (mkdir_sync (Some fallback) _) as [[u w']|e]; reflexivity. }
  split; [exact Hdir|]. split.
  - rewrite Hdir. unfold mkdir_sync. cbn [forbidden set_cacheDirPath].
    destruct (existsb _ _); discriminate.
  - intro Hok.
    assert (Hdir' : cacheDir root w
                    = Ok (fallback, add_entry fallback (set_cacheDirPath (Some fallback) w))).
    { rewrite Hdir. unfold mkdir_sync. cbn [forbidden set_cacheDirPath].
      now rewrite Hok. }
    split; [exact Hdir'|].
    intros t c. unfold cacheFile, bind. rewrite Hdir'.
    do 2 eexists. reflexivity.
Qed.

Lemma cacheDir_fallback_witness :
  cacheDir None unsupported_world
  = Ok ("/tmp/moment-timezone-data-webpack-plugin",
        add_entry "/tmp/moment-timezone-data-webpack-plugin"
          (set_cacheDirPath (Some "/tmp/moment-timezone-data-webpack-plugin")
             unsupported_world)).
Proof.
  destruct (cacheDir_fallback None unsupported_world) as (_ & _ & H).
  - reflexivity.
  - reflexivity.
  - reflexivity.
  - destruct H as [H _]; [reflexivity | exact H].
Defined.

(** * [flatMap] and [unique] *)

Lemma fold_left_push (things ret : list value) :
  fold_left (fun ret thing => ret ++ [thing])%list things ret = (ret ++ things)%list.
Proof.
  revert ret. induction things as [|x things IH]; intro ret; simpl.
  - now rewrite app_nil_r.
  - now rewrite IH, <- app_assoc.
Qed.

Lemma flatMap_forEach_native (f : mapper) (source : list value) (l : list value) :
  forall (k : nat) (ret : list value),
    flatMap_forEach f source k l ret
    = (spliced <- Array_flatMap_from f source k l ;; Ok (ret ++ spliced)%list)%result.
Proof.
  induction l as [|x l IH]; intros k ret; cbn [flatMap_forEach Array_flatMap_from].
  - cbn [bind_result]. now rewrite app_nil_r.
  - destruct (f x k source) as [r|e]; cbn [bind_result]; [|reflexivity].
    rewrite IH.
    destruct (Array_flatMap_from f source (S k) l) as [rest|e];
      cbn [bind_result]; [|reflexivity].
    destruct r; rewrite ?fold_left_push, <- ?app_assoc; reflexivity.
Qed.

Lemma Array_flatMap_from_total (g : value -> nat -> value) (f : mapper)
  (source : list value) (l : list value) :
  forall k : nat,
    (forall x i, f x i source = Ok (g x i)) ->
    Array_flatMap_from f source k l
    = Ok (flat_map (fun ix => spliced (g (snd ix) (fst ix)))
            (combine (seq k (List.length l)) l)).
Proof.
  induction l as [|x l IH]; intros k Hf; [reflexivity|].
  cbn [Array_flatMap_from List.length seq combine flat_map fst snd].
  rewrite Hf, (IH (S k) Hf). reflexivity.
Qed.

(** X2: with a mapper that does not throw, [flatMap] calls it on every
    element with the element's index, in order, and concatenates what it
    returns, an array being spliced in one level deep and any other value
    kept as one element; with a mapper that returns no array it is [map]
    and keeps the length. *)
Theorem flatMap_splices_one_level (has_flatMap : bool) (arr : list value)
  (f : mapper) (g : value -> nat -> value) :
  (forall x i, f x i arr = Ok (g x i)) ->
  flatMap has_flatMap arr f
  = Ok (flat_map (fun ix => spliced (g (snd ix) (fst ix))) (indexed arr))
  /\ ((forall x i things, g x i <> JArray things) ->
      flatMap has_flatMap arr f
      = Ok (map (fun ix => g (snd ix) (fst ix)) (indexed arr))).
Proof.
  intro Hf.
  assert (H : flatMap has_flatMap arr f
              = Ok (flat_map (fun ix => spliced (g (snd ix) (fst ix))) (indexed arr))).
  { destruct has_flatMap.
    - unfold flatMap. now apply Array_flatMap_from_total.
    - unfold flatMap. rewrite flatMap_forEach_native.
      now rewrite (Array_flatMap_from_total g). }
  split; [exact H|].
  intro Hg. rewrite H. f_equal. clear H.
  induction (indexed arr) as [|[i x] l IH]; [reflexivity|].
  cbn [flat_map map fst snd]. rewrite IH.
  unfold spliced. destruct (g x i) eqn:E; try reflexivity.
  now elim (Hg x i items).
Qed.

Lemma flatMap_splices_one_level_witness :
  flatMap false [JStr "a"; JArray [JStr "b"; JArray [JStr "c"]]; JNum (Int 3)]
    (fun x _ _ => Ok x)
  = Ok [JStr "a"; JStr "b"; JArray [JStr "c"]; JNum (Int 3)].
Proof.
  exact (proj1 (flatMap_splices_one_level false
                  [JStr "a"; JArray [JStr "b"; JArray [JStr "c"]]; JNum (Int 3)]
                  (fun x _ _ => Ok x) (fun x _ => x) (fun _ _ => eq_refl))).
Defined.

(** ** [unique] *)

Lemma SameValueZero_sym (a b : value) : SameValueZero a b = SameValueZero b a.
Proof.
  destruct a as [| |x|x|x|x|x], b as [| |y|y|y|y|y]; try reflexivity; simpl.
  - destruct x, y; reflexivity.
  - destruct x, y; try reflexivity; simpl. apply Z.eqb_sym.
  - apply String.eqb_sym.
Qed.

Lemma SameValueZero_eq (a b : value) : SameValueZero a b = true -> a = b.
Proof.
  destruct a as [| |x|x|x|x|x], b as [| |y|y|y|y|y]; try discriminate;
    try reflexivity; simpl; intro H.
  - now apply Bool.eqb_prop in H; subst.
  - destruct x, y; try discriminate; try reflexivity.
    apply Z.eqb_eq in H. now subst.
  - apply String.eqb_eq in H. now subst.
Qed.

Lemma SameValueZero_refl (a : value) : primitive a = true -> SameValueZero a a = true.
Proof.
  destruct a as [| |x|x|x|x|x]; try discriminate; try reflexivity; simpl; intros _.
  - apply Bool.eqb_reflx.
  - destruct x; try reflexivity. apply Z.eqb_refl.
  - apply String.eqb_refl.
Qed.

Lemma SameValueZero_trans (a b c : value) :
  SameValueZero a b = true -> SameValueZero b c = true -> SameValueZero a c = true.
Proof.
  intros H1 H2. apply SameValueZero_eq in H1. now subst.
Qed.

Lemma existsb_SameValueZero_trans (x y : value) (l : list value) :
  SameValueZero x y = true ->
  existsb (SameValueZero y) l = true -> existsb (SameValueZero x) l = true.
Proof.
  intros Hxy H. apply existsb_exists in H. destruct H as (z & Hz & Hyz).
  apply existsb_exists. exists z. split; [assumption|].
  now apply SameValueZero_trans with y.
Qed.

(** The set built by adding the elements of [rev m] one after the other. *)
Lemma Set_of_reversed (m : list value) :
  fold_right (fun x elements => Set_add elements x) [] m = rev (last_occurrences m)
  /\ forall x, existsb (SameValueZero x)
                 (fold_right (fun x elements => Set_add elements x) [] m)
               = existsb (SameValueZero x) m.
Proof.
  induction m as [|y m [IH1 IH2]]; [split; reflexivity|].
  cbn [fold_right last_occurrences]. unfold Set_add at 1 3.
  rewrite IH2. destruct (existsb (SameValueZero y) m) eqn:E.
  - split; [exact IH1|]. intro x. rewrite IH2. cbn [existsb].
    destruct (SameValueZero x y) eqn:Exy; [|reflexivity].
    simpl. now apply existsb_SameValueZero_trans with y.
  - split.
    + cbn [rev]. now rewrite IH1.
    + intro x. rewrite existsb_app, IH2. cbn [existsb].
      rewrite orb_false_r. apply orb_comm.
Qed.

Lemma fold_Set_add (l : list value) :
  fold_left Set_add l [] = first_occurrences l.
Proof.
  unfold first_occurrences.
  rewrite <- (proj1 (Set_of_reversed (rev l))).
  symmetry. apply fold_left_rev_right.
Qed.

Lemma unique_iterated (items : value) :
  unique items = first_occurrences (iterated items).
Proof.
  destruct items; try reflexivity; apply fold_Set_add.
Qed.

Lemma last_occurrences_sub (x : value) (m : list value) :
  existsb (SameValueZero x) (last_occurrences m) = true ->
  existsb (SameValueZero x) m = true.
Proof.
  induction m as [|y m IH]; [trivial|].
  cbn [last_occurrences]. destruct (existsb (SameValueZero y) m) eqn:E;
    cbn [existsb]; intro H.
  - rewrite (IH H). apply orb_true_r.
  - apply orb_prop in H. destruct H as [H|H]; [now rewrite H|].
    rewrite (IH H). apply orb_true_r.
Qed.

Lemma last_occurrences_idempotent (m : list value) :
  last_occurrences (last_occurrences m) = last_occurrences m.
Proof.
  induction m as [|y m IH]; [reflexivity|].
  cbn [last_occurrences]. destruct (existsb (SameValueZero y) m) eqn:E; [exact IH|].
  cbn [last_occurrences].
  destruct (existsb (SameValueZero y) (last_occurrences m)) eqn:E'.
  - apply last_occurrences_sub in E'. congruence.
  - now rewrite IH.
Qed.

Lemma last_occurrences_In (m : list value) (x : value) :
  forallb primitive m = true ->
  (In x (last_occurrences m) <-> In x m).
Proof.
  induction m as [|y m IH]; intro Hp; [reflexivity|].
  cbn [forallb] in Hp. apply andb_prop in Hp. destruct Hp as [Hy Hm].
  cbn [last_occurrences]. destruct (existsb (SameValueZero y) m) eqn:E.
  - rewrite (IH Hm). split; [now right|]. intros [<-|H]; [|assumption].
    apply existsb_exists in E. destruct E as (z & Hz & Hyz).
    apply SameValueZero_eq in Hyz. now subst.
  - simpl. now rewrite (IH Hm).
Qed.

Lemma last_occurrences_NoDup (m : list value) :
  forallb primitive m = true -> NoDup (last_occurrences m).
Proof.
  induction m as [|y m IH]; intro Hp; [constructor|].
  cbn [forallb] in Hp. apply andb_prop in Hp. destruct Hp as [Hy Hm].
  cbn [last_occurrences]. destruct (existsb (SameValueZero y) m) eqn:E; [auto|].
  constructor; [|auto]. intro H. apply (last_occurrences_In m y Hm) in H.
  assert (existsb (SameValueZero y) m = true); [|congruence].
  apply existsb_exists. exists y. split; [assumption | now apply SameValueZero_refl].
Qed.

(** X3: [unique] keeps exactly the first occurrence of every element, in
    the order of the input, whether the input is an array or a string
    (whose elements are its characters); for any other input it is
    empty. *)
Theorem unique_keeps_first_occurrences (items : value) :
  unique items = first_occurrences (iterated items)
  /\ ((forall l, items <> JArray l) -> (forall s, items <> JStr s) -> unique items = []).
Proof.
  split; [apply unique_iterated|].
  intros Ha Hs. destruct items; try reflexivity.
  - now elim (Hs s).
  - now elim (Ha items).
Qed.

(** X4: applied to an array of primitives or to a string, [unique] returns
    a list without a repeated element that has exactly the elements of the
    input. *)
Theorem unique_has_no_duplicate (items : value) :
  forallb primitive (iterated items) = true ->
  NoDup (unique items)
  /\ forall x, In x (unique items) <-> In x (iterated items).
Proof.
  intro Hp. rewrite unique_iterated. unfold first_occurrences.
  assert (Hrev : forallb primitive (rev (iterated items)) = true).
  { apply forallb_forall. intros x Hx. apply in_rev in Hx.
    now apply (proj1 (forallb_forall _ _) Hp). }
  split.
  - apply NoDup_rev. now apply last_occurrences_NoDup.
  - intro x. rewrite <- in_rev, (last_occurrences_In _ x Hrev). symmetry. apply in_rev.
Qed.

Lemma unique_has_no_duplicate_witness :
  NoDup (unique (JStr "this is a string"))
  /\ unique (JStr "this is a string")
     = map JStr ["t"; "h"; "i"; "s"; " "; "a"; "r"; "n"; "g"].
Proof.
  split.
  - exact (proj1 (unique_has_no_duplicate (JStr "this is a string") eq_refl)).
  - reflexivity.
Defined.

(** X5: [unique] is idempotent: applied to the array it returned, it
    returns that array again. *)
Theorem unique_idempotent (items : value) :
  unique (JArray (unique items)) = unique items.
Proof.
  rewrite (unique_iterated (JArray (unique items))). cbn [iterated].
  rewrite unique_iterated. unfold first_occurrences.
  now rewrite rev_involutive, last_occurrences_idempotent.
Qed.

Example unique_of_numbers :
  unique (JArray (map (fun z => JNum (Int z)) [1; 2; 3; 1; 5; 2; 4]%Z))
  = map (fun z => JNum (Int z)) [1; 2; 3; 5; 4]%Z.
Proof. reflexivity. Qed.

(** * More on the matcher compiler *)

Lemma regexps_In (items : list value) (r : regex) :
  In r (regexps items) <-> In (JRegExp r) items.
Proof.
  unfold regexps. rewrite in_flat_map. split.
  - intros (v & Hv & Hr). destruct v; try contradiction.
    destruct Hr as [->|[]]. assumption.
  - intro H. exists (JRegExp r). split; [assumption | now left].
Qed.

Lemma plain_In (items : list value) (v : value) :
  In v (plain items) <-> In v items /\ instanceof_RegExp v = false.
Proof.
  unfold plain. rewrite filter_In. split; intros [H1 H2]; split; trivial.
  - now destruct (instanceof_RegExp v).
  - now rewrite H2.
Qed.

Lemma regexps_or_plain (items : list value) :
  items <> [] -> regexps items <> [] \/ plain items <> [].
Proof.
  destruct items as [|v items]; [congruence|]. intros _.
  unfold regexps, plain. cbn [flat_map filter].
  destruct v; cbn [instanceof_RegExp negb app]; (now left) || (now right).
Qed.

Lemma createMatchers_primitive (v : value) :
  truthy v = true -> primitive v = true ->
  createMatchers v = Ok [anchored (lit (ToString v))].
Proof.
  intros Ht Hp.
  assert (Hnew : RegExp_new ("^(?:" ++ RegExp_escape (ToString v) ++ ")$")
                 = Some (anchored (lit (ToString v))))
    by apply (RegExp_new_exact [ToString v]).
  unfold createMatchers. rewrite Ht. cbn [negb].
  destruct v; try discriminate; cbn [toString bind_result];
    unfold exactRegExp; now rewrite Hnew.
Qed.

(** What [createMatchers] returns where it returns: always at least one
    matcher. *)
Lemma createMatchers_cases (v : value) :
  if has_undefined_plain v
  then createMatchers v = Throw TypeError
  else exists m ms, createMatchers v = Ok (m :: ms).
Proof.
  destruct (truthy v) eqn:Ht.
  2:{ assert (H : createMatchers v = Ok [match_anything])
        by (unfold createMatchers; now rewrite Ht).
      destruct v; try discriminate; cbn [has_undefined_plain]; eauto. }
  destruct (primitive v) eqn:Hp.
  { rewrite (createMatchers_primitive v Ht Hp).
    destruct v; try discriminate; cbn [has_undefined_plain]; eauto. }
  destruct v as [| |b|n|s|r|items]; try discriminate; cbn [has_undefined_plain].
  { cbn. eauto. }
  clear Ht Hp.
  destruct items as [|v items]; [cbn; eauto|].
  remember (v :: items) as l eqn:El.
  assert (Hne : l <> []) by (subst; discriminate). clear El v items.
  rewrite createMatchers_array by assumption.
  destruct (plain l) as [|p ps] eqn:Hp.
  - cbn [forallb negb].
    destruct (regexps_or_plain l Hne) as [H|H]; [|congruence].
    destruct (regexps l); [congruence | eauto].
  - destruct (forallb defined (p :: ps)) eqn:Hd; cbn [negb].
    + rewrite (arrayRegExp_defined _ Hd). cbn [bind_result].
      destruct (regexps l); cbn [app]; eauto.
    + now rewrite (arrayRegExp_throws _ Hd).
Qed.

(** X6: [createMatchers] throws exactly for an array one of whose
    non-RegExp elements is undefined or null, and what it throws is a
    TypeError; on every other value it returns, and [new RegExp] never
    rejects a pattern it builds. *)
Theorem createMatchers_throws_exactly (v : value) :
  (has_undefined_plain v = true <-> createMatchers v = Throw TypeError)
  /\ (has_undefined_plain v = false <-> exists ms, createMatchers v = Ok ms)
  /\ createMatchers v <> Throw SyntaxError.
Proof.
  assert (H := createMatchers_cases v).
  destruct (has_undefined_plain v).
  - rewrite H. repeat split; try discriminate; trivial.
    intros (ms & Hms). discriminate.
  - destruct H as (m & ms & H). rewrite H. repeat split; try discriminate; eauto.
Qed.

(** X7: a set of matchers [createMatchers] returns is never empty, so the
    answer of [anyMatch] for it is always decided by its matchers and never
    by the rule that an empty set matches everything. *)
Theorem createMatchers_never_empty (v : value) (ms : list regex) (item : string) :
  createMatchers v = Ok ms ->
  ms <> []
  /\ anyMatch item (MArray ms) MUndefined
     = existsb (fun matcher => test matcher item) ms.
Proof.
  intro H. assert (Hc := createMatchers_cases v).
  destruct (has_undefined_plain v); [congruence|].
  destruct Hc as (m & ms' & Hc). rewrite H in Hc. injection Hc as ->.
  split; [discriminate | reflexivity].
Qed.

Lemma createMatchers_never_empty_witness :
  [anchored Empty] <> []
  /\ anyMatch "UTC" (MArray [anchored Empty]) MUndefined = false.
Proof.
  destruct (createMatchers_never_empty (JArray []) [anchored Empty] "UTC" eq_refl)
    as [H1 H2].
  split; [exact H1 | rewrite H2; reflexivity].
Defined.

(** X8: compiled from a non-empty array whose plain elements are neither
    undefined nor null, the matchers accept a name exactly when one of the
    RegExp elements matches it or it is the string form of one of the plain
    elements. *)
Theorem compiled_array_accepts (items : list value) (item : string) :
  items <> [] ->
  forallb defined (plain items) = true ->
  exists ms,
    createMatchers (JArray items) = Ok ms
    /\ (anyMatch item (MArray ms) MUndefined = true
        <-> (exists r, In (JRegExp r) items /\ test r item = true)
            \/ (exists v, In v items /\ instanceof_RegExp v = false
                          /\ ToString v = item)).
Proof.
  intros Hne Hdef.
  assert (Hplain : In item (map ToString (plain items))
                   <-> exists v, In v items /\ instanceof_RegExp v = false
                                 /\ ToString v = item).
  { rewrite in_map_iff. split.
    - intros (v & Hv & Hin). apply plain_In in Hin. exists v. tauto.
    - intros (v & Hin & Hr & Hv). exists v. split; [assumption|].
      apply plain_In. tauto. }
  rewrite createMatchers_array by assumption.
  destruct (plain items) as [|p ps] eqn:Hp.
  - exists (regexps items). split; [reflexivity|].
    destruct (regexps_or_plain items Hne) as [H|H]; [|congruence].
    unfold anyMatch, anyMatch1.
    destruct (regexps items) as [|r rs] eqn:Hr; [congruence|].
    rewrite existsb_exists, <- Hr. split.
    + intros (r' & Hin & Ht). left. exists r'. split; [now apply regexps_In | assumption].
    + intros [(r' & Hin & Ht)|H'].
      * exists r'. split; [now apply regexps_In | assumption].
      * apply Hplain in H'. destruct H'.
  - rewrite (arrayRegExp_defined _ Hdef). cbn [bind_result].
    eexists. split; [reflexivity|].
    unfold anyMatch, anyMatch1.
    destruct (regexps items ++ [anchored (alts (map ToString (p :: ps)))])%list
      as [|m ms] eqn:Hm; [now destruct (regexps items)|].
    rewrite <- Hm, existsb_exists. rewrite <- Hplain. split.
    + intros (r' & Hin & Ht). apply in_app_or in Hin. destruct Hin as [Hin|[<-|[]]].
      * left. exists r'. split; [now apply regexps_In | assumption].
      * right. apply test_anchored, full_match_alts in Ht; [assumption | discriminate].
    + intros [(r' & Hin & Ht)|H'].
      * exists r'. split; [apply in_or_app; left; now apply regexps_In | assumption].
      * eexists. split; [apply in_or_app; right; now left|].
        apply test_anchored, full_match_alts; [discriminate | assumption].
Qed.

Lemma compiled_array_accepts_witness :
  exists ms,
    createMatchers (JArray [JStr "UTC"; JRegExp europe; JStr "GMT"]) = Ok ms
    /\ anyMatch "utc" (MArray ms) MUndefined = false.
Proof.
  destruct (compiled_array_accepts [JStr "UTC"; JRegExp europe; JStr "GMT"] "utc")
    as (ms & H1 & H2).
  - discriminate.
  - reflexivity.
  - exists ms. split; [exact H1|].
    destruct (anyMatch "utc" (MArray ms) MUndefined) eqn:E; [|reflexivity].
    destruct (proj1 H2 eq_refl) as [(r & Hin & Ht)|(v & Hin & _ & Hv)].
    + simpl in Hin. destruct Hin as [Hin|[Hin|[Hin|[]]]]; try discriminate Hin.
      injection Hin as <-. discriminate Ht.
    + simpl in Hin. destruct Hin as [<-|[<-|[<-|[]]]]; discriminate Hv.
Defined.

(** X9: a falsy specification (undefined, null, false, 0, NaN or the empty
    string) compiles to a set that accepts every name, and that leaves the
    answer of a two-set [anyMatch] to the other set. *)
Theorem falsy_specification_is_neutral (v : value) (item : string) :
  truthy v = false ->
  exists ms,
    createMatchers v = Ok ms
    /\ anyMatch item (MArray ms) MUndefined = true
    /\ forall other,
         anyMatch item other (MArray ms) = anyMatch item other MUndefined.
Proof.
  intro Ht. exists [match_anything].
  split; [unfold createMatchers; now rewrite Ht|].
  assert (H : anyMatch1 item (MArray [match_anything]) = true).
  { cbn [anyMatch1 existsb]. now rewrite test_match_anything. }
  split; [exact H|].
  intro other. unfold anyMatch. rewrite H. apply andb_true_r.
Qed.

Lemma falsy_specification_is_neutral_witness :
  exists ms,
    createMatchers (JStr "") = Ok ms
    /\ anyMatch "Europe/Paris" (MArray ms) MUndefined = true.
Proof.
  destruct (falsy_specification_is_neutral (JStr "") "Europe/Paris" eq_refl)
    as (ms & H1 & H2 & _).
  exists ms. split; assumption.
Defined.

(** ** [RegExp.escape] *)

Lemma search_lit (s : string) (x : string) :
  forall b : bool,
    search (lit s) b x = true <-> exists pre post, x = pre ++ s ++ post.
Proof.
  induction x as [|c x IH]; intro b; cbn [search].
  - destruct (run (lit s) (b, EmptyString)) as [|st l] eqn:E.
    + split; [discriminate|]. intros (pre & post & H).
      destruct pre; [|discriminate]. simpl in H.
      destruct (run_lit_complete s b post) as (b' & Hin).
      rewrite <- H, E in Hin. destruct Hin.
    + split; [intros _|reflexivity].
      assert (Hin : In st (run (lit s) (b, EmptyString))) by (rewrite E; now left).
      apply run_lit_sound in Hin. exists EmptyString, (snd st). exact Hin.
  - destruct (run (lit s) (b, String c x)) as [|st l] eqn:E.
    + rewrite IH. split.
      * intros (pre & post & ->). now exists (String c pre), post.
      * intros (pre & post & H). destruct pre as [|c' pre].
        -- simpl in H. destruct (run_lit_complete s b post) as (b' & Hin).
           rewrite <- H, E in Hin. destruct Hin.
        -- injection H as -> ->. now exists pre, post.
    + split; [intros _|reflexivity].
      assert (Hin : In st (run (lit s) (b, String c x))) by (rewrite E; now left).
      apply run_lit_sound in Hin. exists EmptyString, (snd st). exact Hin.
Qed.

(** X10: the escaped form of a string is a pattern [new RegExp] accepts,
    and the RegExp it gives matches an input exactly when the string occurs
    in it, character for character. *)
Theorem RegExp_escape_matches_literally (s : string) :
  exists r,
    RegExp_new (RegExp_escape s) = Some r
    /\ forall x, test r x = true <-> exists pre post, x = pre ++ s ++ post.
Proof.
  exists (lit s). split.
  - unfold RegExp_new.
    rewrite <- (append_nil_r (RegExp_escape s)), tokenize_escape.
    cbn [tokenize option_map].
    rewrite (parse_disjunction_alts [s] []); [reflexivity | exact I |].
    cbn [alts_tokens]. rewrite length_app. simpl. lia.
  - intro x. apply search_lit.
Qed.

(** * More on the cache resolver *)

Lemma add_entry_present (p : string) (w : World) :
  exists_in p w = true -> add_entry p w = w.
Proof.
  unfold exists_in, add_entry. intro H. rewrite H. now destruct w.
Qed.

Lemma set_cacheDirPath_same (m : option string) (w : World) :
  cacheDirPath w = m -> set_cacheDirPath m w = w.
Proof. intros <-. now destruct w. Qed.

Lemma exists_in_add_entry (p q : string) (w : World) :
  exists_in p (add_entry q w) = ((p =? q)%string || exists_in p w)%bool.
Proof.
  unfold exists_in, add_entry. cbn [entries].
  destruct (existsb (String.eqb q) (entries w)) eqn:E; [|reflexivity].
  destruct (String.eqb_spec p q) as [->|]; [|reflexivity].
  now rewrite E.
Qed.

Lemma exists_in_prepared (root : option string) (p : string) (w : World) :
  exists_in p w = true -> exists_in p (prepared root w) = true.
Proof.
  unfold prepared, memoized. intro H.
  destruct (truthy_path root); [assumption|].
  destruct (truthy_path (cacheDirPath w)); [assumption|].
  destruct (findCacheDir_outcome w); try assumption.
  change (exists_in p (add_entry dir w) = true).
  rewrite exists_in_add_entry, H. apply orb_true_r.
Qed.

(** [cacheDir] in one equation: the directory it settles on is created in
    the prepared world. *)
Lemma cacheDir_run (root : option string) (w : World) :
  cacheDir root w
  = match root_dir root w with
    | None => Throw TypeError
    | Some d =>
        if existsb (String.eqb d) (forbidden w) then Throw (EACCES d)
        else Ok (d, add_entry d (prepared root w))
    end.
Proof.
  unfold cacheDir, root_dir, prepared.
  destruct (truthy_path root) eqn:Hroot.
  - destruct root as [d|]; [|discriminate].
    unfold bind, mkdir_sync. now destruct (existsb _ _).
  - unfold autoGeneratedCacheDir, bind, get_cacheDirPath, default_dir, memoized.
    destruct (truthy_path (cacheDirPath w)) eqn:Hmemo; cbn [negb].
    + unfold ret. destruct (cacheDirPath w) as [d|]; [|discriminate].
      unfold mkdir_sync. now destruct (existsb _ _).
    + unfold try_catch, bind, findCacheDir, get_tmpdir, assign_cacheDirPath, fallback_dir.
      destruct (findCacheDir_outcome w) as [d| |];
        cbn [cacheDirPath set_cacheDirPath add_entry forbidden mkdir_sync];
        unfold mkdir_sync; cbn [forbidden set_cacheDirPath add_entry];
        try reflexivity; now destruct (existsb _ _).
Qed.

Lemma cacheFile_run (t : tzdata) (c : config) (root : option string) (w : World) :
  cacheFile t c root w
  = match cacheDir root w with
    | Ok (d, w') =>
        let filepath := path_join d (MD5.md5_hex (cacheKey t c) ++ ".json") in
        Ok ({| path := filepath; exists_ := exists_in filepath w' |}, w')
    | Throw e => Throw e
    end.
Proof.
  unfold cacheFile, bind. destruct (cacheDir root w) as [[d w']|e]; reflexivity.
Qed.

Lemma prepared_fields (root : option string) (w : World) :
  forbidden (prepared root w) = forbidden w
  /\ findCacheDir_outcome (prepared root w) = findCacheDir_outcome w
  /\ os_tmpdir (prepared root w) = os_tmpdir w.
Proof.
  unfold prepared, memoized.
  destruct (truthy_path root); [auto|].
  destruct (truthy_path (cacheDirPath w)); [auto|].
  destruct (findCacheDir_outcome w) eqn:E; cbn; auto.
Qed.

(** After a successful default resolution the variable holds the
    directory. *)
Lemma memoized_dir (w : World) (d : string) :
  default_dir w = Some d -> cacheDirPath (memoized w) = Some d.
Proof.
  unfold default_dir, memoized.
  destruct (truthy_path (cacheDirPath w)); [trivial|].
  destruct (findCacheDir_outcome w); intro H; try discriminate; exact H.
Qed.

(** X11: with a non-empty override [cacheFile] creates that directory and
    resolves the file under it, whatever is memoized and whatever
    [findCacheDir] would do, and leaves the memoized directory as it was;
    if the directory cannot be created the error of [mkdir.sync] is
    thrown. *)
Theorem cacheFile_override (t : tzdata) (c : config) (d : string) (w : World) :
  d <> EmptyString ->
  (if existsb (String.eqb d) (forbidden w)
   then cacheFile t c (Some d) w = Throw (EACCES d)
   else
     let filepath := path_join d (MD5.md5_hex (cacheKey t c) ++ ".json") in
     cacheFile t c (Some d) w
     = Ok ({| path := filepath; exists_ := exists_in filepath (add_entry d w) |},
           add_entry d w))
  /\ cacheDirPath (add_entry d w) = cacheDirPath w.
Proof.
  intro Hd. split; [|reflexivity].
  rewrite cacheFile_run, cacheDir_run. unfold root_dir, prepared.
  destruct d as [|x d]; [congruence|]. cbn [truthy_path].
  now destruct (existsb _ _).
Qed.

Lemma cacheFile_override_witness :
  cacheFile {| version := JStr "2023a" |} (config_split JUndefined (Int 2000) (Int 2020))
    (Some "/cache") (set_cacheDirPath (Some "/elsewhere") unsupported_world)
  = Ok ({| path := "/cache/5567dd1ddba2e32ad49fbd72ea418674.json"; exists_ := false |},
        add_entry "/cache" (set_cacheDirPath (Some "/elsewhere") unsupported_world)).
Proof.
  assert (H := proj1 (cacheFile_override {| version := JStr "2023a" |}
                        (config_split JUndefined (Int 2000) (Int 2020)) "/cache"
                        (set_cacheDirPath (Some "/elsewhere") unsupported_world)
                        ltac:(discriminate))).
  cbv zeta in H. cbn [forbidden set_cacheDirPath unsupported_world existsb] in H.
  rewrite H. vm_compute. reflexivity.
Defined.

(** X12: without an override and with nothing memoized, when [findCacheDir]
    returns undefined instead of throwing, no fallback is substituted:
    [mkdir.sync] is called on undefined, and [cacheDir] and [cacheFile]
    throw a TypeError. *)
Theorem cacheDir_undefined_is_not_recovered (t : tzdata) (c : config)
  (root : option string) (w : World) :
  truthy_path root = false ->
  truthy_path (cacheDirPath w) = false ->
  findCacheDir_outcome w = NotFound ->
  cacheDir root w = Throw TypeError
  /\ cacheFile t c root w = Throw TypeError.
Proof.
  intros Hroot Hmemo Hfind.
  assert (H : cacheDir root w = Throw TypeError).
  { rewrite cacheDir_run. unfold root_dir, default_dir.
    now rewrite Hroot, Hmemo, Hfind. }
  split; [exact H|]. now rewrite cacheFile_run, H.
Qed.

Lemma cacheDir_undefined_is_not_recovered_witness :
  cacheDir None (in_environment NotFound "/tmp" unsupported_world) = Throw TypeError.
Proof.
  exact (proj1 (cacheDir_undefined_is_not_recovered
                  {| version := JUndefined |}
                  (config_split JUndefined NaN NaN) None
                  (in_environment NotFound "/tmp" unsupported_world)
                  eq_refl eq_refl eq_refl)).
Defined.

Lemma cacheDir_success (root : option string) (w : World) (d : string) (w' : World) :
  cacheDir root w = Ok (d, w') ->
  root_dir root w = Some d
  /\ existsb (String.eqb d) (forbidden w) = false
  /\ w' = add_entry d (prepared root w).
Proof.
  rewrite cacheDir_run.
  destruct (root_dir root w) as [d0|]; [|discriminate].
  destruct (existsb (String.eqb d0) (forbidden w)) eqn:E; [discriminate|].
  intro H. injection H as <- <-. auto.
Qed.

(** X13: once [cacheDir] has returned a non-empty default directory, every
    later call without an override returns that directory and changes
    nothing, whatever [findCacheDir] and [os.tmpdir] would answer by then:
    they are not asked again. *)
Theorem cacheDir_memoizes (root : option string) (w : World) (d : string) (w' : World) :
  truthy_path root = false ->
  d <> EmptyString ->
  cacheDir root w = Ok (d, w') ->
  forall outcome tmp,
    cacheDir root (in_environment outcome tmp w')
    = Ok (d, in_environment outcome tmp w').
Proof.
  intros Hroot Hd H outcome tmp.
  apply cacheDir_success in H. destruct H as (Hdir & Hforb & ->).
  unfold root_dir, prepared in *. rewrite Hroot in *.
  assert (Hmemo := memoized_dir w d Hdir).
  destruct (prepared_fields None w) as (Hf & _ & _).
  unfold prepared in Hf. cbn [truthy_path] in Hf.
  remember (memoized w) as w1 eqn:Ew1. clear Ew1 Hdir.
  rewrite cacheDir_run. unfold root_dir, prepared, default_dir, memoized.
  rewrite Hroot. cbn [in_environment cacheDirPath forbidden add_entry].
  rewrite Hmemo. destruct d as [|x d]; [congruence|]. cbn [truthy_path].
  rewrite Hf, Hforb.
  f_equal. f_equal. apply add_entry_present.
  unfold exists_in. cbn [in_environment entries].
  change (exists_in (String x d) (add_entry (String x d) w1) = true).
  rewrite exists_in_add_entry, String.eqb_refl. reflexivity.
Qed.

Lemma cacheDir_memoizes_witness :
  let w' := add_entry "/tmp/moment-timezone-data-webpack-plugin"
              (set_cacheDirPath (Some "/tmp/moment-timezone-data-webpack-plugin")
                 unsupported_world) in
  cacheDir None (in_environment (Found "/project/node_modules/.cache") "/var/tmp" w')
  = Ok ("/tmp/moment-timezone-data-webpack-plugin",
        in_environment (Found "/project/node_modules/.cache") "/var/tmp" w').
Proof.
  intro w'.
  apply (cacheDir_memoizes None unsupported_world
           "/tmp/moment-timezone-data-webpack-plugin" w').
  - reflexivity.
  - discriminate.
  - reflexivity.
Defined.

Lemma truthy_path_false (d : string) :
  truthy_path (Some d) = false -> d = EmptyString.
Proof. destruct d; [reflexivity | discriminate]. Qed.

Lemma default_dir_stable (w w2 : World) (d : string) :
  default_dir w = Some d ->
  cacheDirPath w2 = Some d ->
  findCacheDir_outcome w2 = findCacheDir_outcome w ->
  os_tmpdir w2 = os_tmpdir w ->
  default_dir w2 = Some d.
Proof.
  unfold default_dir, fallback_dir. intros Hdir Hmemo Hout Htmp.
  rewrite Hmemo, Hout, Htmp.
  destruct (truthy_path (Some d)) eqn:Ht; [reflexivity|].
  apply truthy_path_false in Ht. subst d.
  destruct (truthy_path (cacheDirPath w)) eqn:Hw; [|exact Hdir].
  rewrite Hdir in Hw. discriminate.
Qed.

Lemma memoized_stable (w2 : World) (d : string) :
  default_dir w2 = Some d ->
  cacheDirPath w2 = Some d ->
  exists_in d w2 = true ->
  memoized w2 = w2.
Proof.
  unfold default_dir, memoized. intros Hdir Hmemo Hin.
  destruct (truthy_path (cacheDirPath w2)); [reflexivity|].
  destruct (findCacheDir_outcome w2); try discriminate;
    injection Hdir as Hdir; rewrite Hdir.
  - rewrite (add_entry_present d w2 Hin). now apply set_cacheDirPath_same.
  - now apply set_cacheDirPath_same.
Qed.

(** Once [cacheDir] has succeeded, it succeeds alike in every world that
    differs from the one it left only in the paths that exist, provided the
    directory is among them, and leaves such a world as it is. *)
Lemma cacheDir_settled (root : option string) (w : World) (d : string) (w' w2 : World) :
  cacheDir root w = Ok (d, w') ->
  forbidden w2 = forbidden w' ->
  findCacheDir_outcome w2 = findCacheDir_outcome w' ->
  os_tmpdir w2 = os_tmpdir w' ->
  cacheDirPath w2 = cacheDirPath w' ->
  exists_in d w2 = true ->
  cacheDir root w2 = Ok (d, w2).
Proof.
  intros H Hf Ho Ht Hm Hin.
  apply cacheDir_success in H. destruct H as (Hdir & Hforb & ->).
  destruct (prepared_fields root w) as (Hf' & Ho' & Ht').
  cbn [add_entry forbidden findCacheDir_outcome os_tmpdir cacheDirPath] in Hf, Ho, Ht, Hm.
  rewrite Hf' in Hf. rewrite Ho' in Ho. rewrite Ht' in Ht.
  rewrite cacheDir_run. unfold root_dir, prepared in *.
  destruct (truthy_path root) eqn:Hroot.
  - rewrite Hdir, Hf, Hforb. now rewrite add_entry_present.
  - rewrite (memoized_dir w d Hdir) in Hm.
    assert (Hdir2 := default_dir_stable w w2 d Hdir Hm Ho Ht).
    rewrite Hdir2, Hf, Hforb, (memoized_stable w2 d Hdir2 Hm Hin).
    now rewrite add_entry_present.
Qed.

Lemma exists_in_after_cacheDir (root : option string) (w : World) (d : string) (w' : World) :
  cacheDir root w = Ok (d, w') ->
  exists_in d w' = true
  /\ forall p, exists_in p w = true -> exists_in p w' = true.
Proof.
  intro H. apply cacheDir_success in H. destruct H as (_ & _ & ->). split.
  - now rewrite exists_in_add_entry, String.eqb_refl.
  - intros p Hp. rewrite exists_in_add_entry, (exists_in_prepared root p w Hp).
    apply orb_true_r.
Qed.

(** X14: [cacheFile] is idempotent: called again with the same arguments in
    the world the first call left, it returns the same descriptor and
    leaves that world as it is. *)
Theorem cacheFile_idempotent (t : tzdata) (c : config) (root : option string)
  (w : World) (desc : descriptor) (w' : World) :
  cacheFile t c root w = Ok (desc, w') ->
  cacheFile t c root w' = Ok (desc, w').
Proof.
  intro H. rewrite cacheFile_run in H.
  destruct (cacheDir root w) as [[d w1]|e] eqn:Hdir; [|discriminate].
  cbv zeta in H. injection H as <- <-.
  rewrite cacheFile_run.
  rewrite (cacheDir_settled root w d w1 w1 Hdir eq_refl eq_refl eq_refl eq_refl
             (proj1 (exists_in_after_cacheDir root w d w1 Hdir))).
  reflexivity.
Qed.

Lemma cacheFile_idempotent_witness :
  let t := {| version := JStr "2023a" |} in
  let c := config_split JUndefined (Int 2000) (Int 2020) in
  let w' := add_entry "/tmp/moment-timezone-data-webpack-plugin"
              (set_cacheDirPath (Some "/tmp/moment-timezone-data-webpack-plugin")
                 unsupported_world) in
  cacheFile t c None w'
  = Ok ({| path := "/tmp/moment-timezone-data-webpack-plugin/5567dd1ddba2e32ad49fbd72ea418674.json";
           exists_ := false |}, w').
Proof.
  intros t c w'.
  apply (cacheFile_idempotent t c None unsupported_world).
  vm_compute. reflexivity.
Defined.

(** X15: once a file has been written at the path a call of [cacheFile]
    returned, the same call returns the same path with the flag set, and
    changes nothing. *)
Theorem cacheFile_sees_written_file (t : tzdata) (c : config) (root : option string)
  (w : World) (desc : descriptor) (w' : World) :
  cacheFile t c root w = Ok (desc, w') ->
  cacheFile t c root (add_entry (path desc) w')
  = Ok ({| path := path desc; exists_ := true |}, add_entry (path desc) w').
Proof.
  intro H. rewrite cacheFile_run in H.
  destruct (cacheDir root w) as [[d w1]|e] eqn:Hdir; [|discriminate].
  cbv zeta in H. injection H as <- <-. cbn [path].
  set (filepath := path_join d (MD5.md5_hex (cacheKey t c) ++ ".json")).
  rewrite cacheFile_run.
  rewrite (cacheDir_settled root w d w1 (add_entry filepath w1) Hdir
             eq_refl eq_refl eq_refl eq_refl).
  - cbv zeta. fold filepath.
    now rewrite exists_in_add_entry, String.eqb_refl.
  - rewrite exists_in_add_entry,
      (proj1 (exists_in_after_cacheDir root w d w1 Hdir)).
    apply orb_true_r.
Qed.

Lemma cacheFile_sees_written_file_witness :
  let t := {| version := JStr "2023a" |} in
  let c := config_split JUndefined (Int 2000) (Int 2020) in
  exists w'',
    cacheFile t c (Some "/cache")
      (add_entry "/cache/5567dd1ddba2e32ad49fbd72ea418674.json"
         (add_entry "/cache" unsupported_world))
    = Ok ({| path := "/cache/5567dd1ddba2e32ad49fbd72ea418674.json"; exists_ := true |},
          w'').
Proof.
  intros t c. eexists.
  apply (cacheFile_sees_written_file t c (Some "/cache") unsupported_world
           {| path := "/cache/5567dd1ddba2e32ad49fbd72ea418674.json"; exists_ := false |}).
  vm_compute. reflexivity.
Defined.

(** X16: when [cacheFile] returns, the cache root exists, no path that
    existed before has gone, and a file that was at the returned path
    before the call is reported. *)
Theorem cacheFile_keeps_the_world (t : tzdata) (c : config) (root : option string)
  (w : World) (desc : descriptor) (w' : World) :
  cacheFile t c root w = Ok (desc, w') ->
  (exists d, cacheDir root w = Ok (d, w') /\ exists_in d w' = true)
  /\ (forall p, exists_in p w = true -> exists_in p w' = true)
  /\ exists_ desc = exists_in (path desc) w'
  /\ (exists_in (path desc) w = true -> exists_ desc = true).
Proof.
  intro H. rewrite cacheFile_run in H.
  destruct (cacheDir root w) as [[d w1]|e] eqn:Hdir; [|discriminate].
  cbv zeta in H. injection H as <- <-. cbn [path exists_].
  destruct (exists_in_after_cacheDir root w d w1 Hdir) as [Hd Hmono].
  repeat split; eauto.
Qed.

Lemma cacheFile_keeps_the_world_witness :
  exists_in "/cache" (add_entry "/cache" unsupported_world) = true.
Proof.
  destruct (cacheFile_keeps_the_world {| version := JStr "2023a" |}
              (config_split JUndefined (Int 2000) (Int 2020)) (Some "/cache")
              unsupported_world
              {| path := "/cache/5567dd1ddba2e32ad49fbd72ea418674.json"; exists_ := false |}
              (add_entry "/cache" unsupported_world))
    as ((d & Hd & Hin) & _).
  - vm_compute. reflexivity.
  - vm_compute in Hd. injection Hd as <-. exact Hin.
Defined.

(** * More on the fingerprint *)

Lemma JSON_unquote_quote_char (c : ascii) (rest : string) :
  JSON_unquote_char (JSON_quote_char c ++ rest) = Some (c, rest).
Proof.
  destruct c as [[|] [|] [|] [|] [|] [|] [|] [|]]; reflexivity.
Qed.

Lemma JSON_quote_body_inj (s1 : string) :
  forall s2 r1 r2,
    JSON_quote_body s1 ++ String dquote r1 = JSON_quote_body s2 ++ String dquote r2 ->
    s1 = s2 /\ r1 = r2.
Proof.
  induction s1 as [|c1 s1 IH]; intros [|c2 s2] r1 r2 H; cbn [JSON_quote_body] in H.
  - simpl in H. injection H as ->. auto.
  - rewrite append_assoc in H. apply (f_equal JSON_unquote_char) in H.
    rewrite JSON_unquote_quote_char in H. discriminate H.
  - rewrite append_assoc in H. apply (f_equal JSON_unquote_char) in H.
    rewrite JSON_unquote_quote_char in H. discriminate H.
  - rewrite !append_assoc in H. apply (f_equal JSON_unquote_char) in H.
    rewrite !JSON_unquote_quote_char in H. injection H as -> H.
    destruct (IH _ _ _ H) as [-> ->]. auto.
Qed.

(** A JSON string literal can be read back from the front of a text. *)
Lemma JSON_quote_inj (s1 s2 r1 r2 : string) :
  JSON_quote s1 ++ r1 = JSON_quote s2 ++ r2 -> s1 = s2 /\ r1 = r2.
Proof.
  unfold JSON_quote. cbn [append]. rewrite !append_assoc. cbn [append].
  intro H. injection H as H. now apply JSON_quote_body_inj.
Qed.

Lemma append_inv_head (p a b : string) : p ++ a = p ++ b -> a = b.
Proof.
  induction p as [|c p IH]; simpl; intro H; [assumption|].
  injection H as H. auto.
Qed.

Lemma split_at_char (c : ascii) (x1 : string) :
  forall x2 y1 y2,
    string_forallb (fun a => negb (a =? c)%char) x1 = true ->
    string_forallb (fun a => negb (a =? c)%char) x2 = true ->
    x1 ++ String c y1 = x2 ++ String c y2 ->
    x1 = x2 /\ y1 = y2.
Proof.
  induction x1 as [|a x1 IH]; intros [|b x2] y1 y2 H1 H2 H; simpl in *.
  - injection H as ->. auto.
  - injection H as <- _. rewrite Ascii.eqb_refl in H2. discriminate.
  - injection H as -> _. rewrite Ascii.eqb_refl in H1. discriminate.
  - injection H as -> H. apply andb_prop in H1, H2.
    destruct (IH x2 y1 y2 (proj2 H1) (proj2 H2) H) as [-> ->]. auto.
Qed.

Lemma string_forallb_impl (p q : ascii -> bool) (s : string) :
  (forall c, p c = true -> q c = true) ->
  string_forallb p s = true -> string_forallb q s = true.
Proof.
  intro Hpq. induction s as [|c s IH]; simpl; [trivial|].
  intro H. apply andb_prop in H. destruct H as [Hc Hs].
  now rewrite (Hpq c Hc), (IH Hs).
Qed.

Lemma string_of_uint_chars (d : Decimal.uint) :
  string_forallb number_char (NilEmpty.string_of_uint d) = true.
Proof. induction d; simpl; auto. Qed.

Lemma JSON_number_chars (n : number) :
  string_forallb number_char (JSON_number n) = true.
Proof.
  destruct n as [z| | |]; try reflexivity.
  unfold JSON_number, string_of_Z, NilZero.string_of_int, NilZero.string_of_uint.
  destruct (Z.to_int z) as [d|d]; destruct d; try reflexivity;
    apply (string_of_uint_chars (_ d)) || (cbn [string_forallb]; apply (string_of_uint_chars (_ d))).
Qed.

Lemma to_int_not_nil (z : Z) : Z.to_int z <> Decimal.Pos Decimal.Nil
                               /\ Z.to_int z <> Decimal.Neg Decimal.Nil.
Proof.
  destruct z as [|p|p]; simpl; split; try discriminate;
    intro H; injection H as H; now apply (Unsigned.to_uint_nonnil p).
Qed.

Lemma string_of_Z_inj (z1 z2 : Z) : string_of_Z z1 = string_of_Z z2 -> z1 = z2.
Proof.
  unfold string_of_Z. intro H. apply DecimalZ.to_int_inj.
  apply (f_equal NilZero.int_of_string) in H.
  destruct (to_int_not_nil z1) as [A1 B1], (to_int_not_nil z2) as [A2 B2].
  rewrite !NilZero.isi in H by assumption. now injection H.
Qed.

Lemma append_inv_tail (a : string) :
  forall b c, a ++ c = b ++ c -> a = b.
Proof.
  induction a as [|x a IH]; intros [|y b] c H; simpl in H.
  - reflexivity.
  - apply (f_equal String.length) in H. simpl in H. rewrite append_length in H. lia.
  - apply (f_equal String.length) in H. simpl in H. rewrite append_length in H. lia.
  - injection H as -> H. now rewrite (IH b c H).
Qed.

(** The text of the fingerprint of a string version. *)
Lemma cacheKey_text (v : string) (c : config) :
  cacheKey {| version := JStr v |} c
  = "{" ++ JSON_quote "version" ++ ":" ++ JSON_quote v
    ++ "," ++ JSON_quote "zones" ++ ":" ++ JSON_quote (ToString (matchZones c))
    ++ "," ++ JSON_quote "countries" ++ ":" ++ JSON_quote (ToString (matchCountries c))
    ++ "," ++ JSON_quote "dates" ++ ":" ++ "["
    ++ JSON_element (startYear c) ++ "," ++ JSON_element (endYear c) ++ "]" ++ "}".
Proof.
  rewrite cacheKey_serialized. cbn [version JSON_stringify].
  now rewrite !append_assoc.
Qed.

(** X17: for string versions the fingerprint can be read back: two
    fingerprints are equal only if the versions are equal, the string forms
    of the zone filters are equal, those of the country filters are equal,
    and the pairs of year bounds are written alike; bounds that are numbers
    then print alike in JSON one by one, and integer bounds are equal. *)
Theorem cacheKey_injective (v1 v2 : string) (c1 c2 : config) :
  cacheKey {| version := JStr v1 |} c1 = cacheKey {| version := JStr v2 |} c2 ->
  v1 = v2
  /\ ToString (matchZones c1) = ToString (matchZones c2)
  /\ ToString (matchCountries c1) = ToString (matchCountries c2)
  /\ JSON_stringify (JArray [startYear c1; endYear c1])
     = JSON_stringify (JArray [startYear c2; endYear c2])
  /\ (forall s1 e1 s2 e2,
         startYear c1 = JNum s1 -> endYear c1 = JNum e1 ->
         startYear c2 = JNum s2 -> endYear c2 = JNum e2 ->
         JSON_number s1 = JSON_number s2
         /\ JSON_number e1 = JSON_number e2
         /\ (forall y1 y2, s1 = Int y1 -> s2 = Int y2 -> y1 = y2)
         /\ (forall y1 y2, e1 = Int y1 -> e2 = Int y2 -> y1 = y2)).
Proof.
  rewrite !cacheKey_text. intro H.
  apply append_inv_head in H. apply append_inv_head in H. apply append_inv_head in H.
  apply JSON_quote_inj in H. destruct H as [Hv H].
  do 3 apply append_inv_head in H.
  apply JSON_quote_inj in H. destruct H as [Hz H].
  do 3 apply append_inv_head in H.
  apply JSON_quote_inj in H. destruct H as [Hc H].
  do 4 apply append_inv_head in H.
  assert (Hd : JSON_element (startYear c1) ++ "," ++ JSON_element (endYear c1)
               = JSON_element (startYear c2) ++ "," ++ JSON_element (endYear c2)).
  { apply (append_inv_tail _ _ ("]" ++ "}")). now rewrite !append_assoc. }
  clear H.
  split; [exact Hv|]. split; [exact Hz|]. split; [exact Hc|]. split.
  - cbn [JSON_stringify map join]. fold (JSON_element (startYear c1)).
    fold (JSON_element (endYear c1)). fold (JSON_element (startYear c2)).
    fold (JSON_element (endYear c2)). now rewrite Hd.
  - intros s1 e1 s2 e2 Es1 Ee1 Es2 Ee2.
    rewrite Es1, Ee1, Es2, Ee2 in Hd. unfold JSON_element in Hd.
    cbn [JSON_stringify] in Hd.
    assert (Hno : forall n,
               string_forallb (fun a => negb (a =? ",")%char) (JSON_number n) = true).
    { intro n. apply (string_forallb_impl number_char); [|apply JSON_number_chars].
      unfold number_char. intros a Ha. now apply andb_prop in Ha. }
    change ("," ++ JSON_number e1) with (String "," (JSON_number e1)) in Hd.
    change ("," ++ JSON_number e2) with (String "," (JSON_number e2)) in Hd.
    apply split_at_char in Hd; try apply Hno.
    destruct Hd as [Hs He]. repeat split; try assumption.
    + intros y1 y2 -> ->. now apply string_of_Z_inj.
    + intros y1 y2 -> ->. now apply string_of_Z_inj.
Qed.

Lemma cacheKey_injective_witness :
  cacheKey {| version := JStr "2023a" |} (config_split JUndefined (Int 2000) (Int 2020))
  <> cacheKey {| version := JStr "2023a" |} (config_split JUndefined (Int 2000) (Int 2021)).
Proof.
  intro H.
  destruct (cacheKey_injective _ _ _ _ H) as (_ & _ & _ & _ & Hn).
  destruct (Hn _ _ _ _ eq_refl eq_refl eq_refl eq_refl) as (_ & _ & _ & He).
  discriminate (He 2020%Z 2021%Z eq_refl eq_refl).
Defined.

(** X18: every infinite or NaN year bound is written [null], so
    configurations that differ only in such bounds have the same
    fingerprint and the same cache file. *)
Theorem cacheKey_forgets_infinite_years (t : tzdata) (zones countries : value)
  (s1 e1 s2 e2 : number) :
  finite s1 = false -> finite e1 = false ->
  finite s2 = false -> finite e2 = false ->
  let c1 := {| matchZones := zones; matchCountries := countries;
               startYear := JNum s1; endYear := JNum e1 |} in
  let c2 := {| matchZones := zones; matchCountries := countries;
               startYear := JNum s2; endYear := JNum e2 |} in
  cacheKey t c1 = cacheKey t c2
  /\ forall root w, cacheFile t c1 root w = cacheFile t c2 root w.
Proof.
  intros H1 H2 H3 H4 c1 c2.
  assert (Hk : cacheKey t c1 = cacheKey t c2).
  { unfold cacheKey, cacheKey_object, JSON_stringify_object, c1, c2.
    cbn [flat_map JSON_member JSON_stringify fst snd map matchZones matchCountries
           startYear endYear].
    destruct s1, e1, s2, e2; try discriminate; reflexivity. }
  split; [exact Hk | now apply cacheFile_of_cacheKey].
Qed.

Lemma cacheKey_forgets_infinite_years_witness :
  cacheKey {| version := JStr "2023a" |}
    {| matchZones := JStr "UTC"; matchCountries := JUndefined;
       startYear := JNum NegInfinity; endYear := JNum PosInfinity |}
  = cacheKey {| version := JStr "2023a" |}
      {| matchZones := JStr "UTC"; matchCountries := JUndefined;
         startYear := JNum PosInfinity; endYear := JNum NaN |}.
Proof.
  exact (proj1 (cacheKey_forgets_infinite_years {| version := JStr "2023a" |}
                  (JStr "UTC") JUndefined NegInfinity PosInfinity PosInfinity NaN
                  eq_refl eq_refl eq_refl eq_refl)).
Defined.

(** * Paths *)

Lemma split_slash_segment (s rest : string) :
  no_slash s = true ->
  split_slash (s ++ String "/" rest) = s :: split_slash rest.
Proof.
  unfold no_slash. induction s as [|c s IH]; intro H; simpl in *.
  - reflexivity.
  - apply andb_prop in H. destruct H as [Hc Hs].
    apply negb_true_iff in Hc. rewrite Hc, (IH Hs). reflexivity.
Qed.

Lemma split_slash_last (s : string) :
  no_slash s = true -> split_slash s = [s].
Proof.
  unfold no_slash. induction s as [|c s IH]; intro H; simpl in *.
  - reflexivity.
  - apply andb_prop in H. destruct H as [Hc Hs].
    apply negb_true_iff in Hc. rewrite Hc, (IH Hs). reflexivity.
Qed.

Lemma clean_segment_no_slash (s : string) :
  clean_segment s = true -> no_slash s = true.
Proof. unfold clean_segment. intro H. now apply andb_prop in H. Qed.

(** Splitting undoes joining. *)
Lemma split_slash_join (l : list string) :
  l <> [] -> forallb clean_segment l = true ->
  split_slash (join "/" l) = l.
Proof.
  induction l as [|s l IH]; intros Hne H; [congruence|].
  cbn [forallb] in H. apply andb_prop in H. destruct H as [Hs Hl].
  apply clean_segment_no_slash in Hs.
  destruct l as [|s' l].
  - simpl. now apply split_slash_last.
  - change (join "/" (s :: s' :: l)) with (s ++ String "/" (join "/" (s' :: l))).
    rewrite (split_slash_segment _ _ Hs), IH by (assumption || discriminate).
    reflexivity.
Qed.

Lemma normalize_clean (b : bool) (l : list string) :
  forall res, forallb clean_segment l = true ->
    fold_left (normalize_step b) l res = (rev l ++ res)%list.
Proof.
  induction l as [|s l IH]; intros res H; [reflexivity|].
  cbn [forallb] in H. apply andb_prop in H. destruct H as [Hs Hl].
  cbn [fold_left rev]. rewrite <- app_assoc. cbn [app].
  rewrite <- (IH (s :: res) Hl). f_equal.
  unfold clean_segment in Hs.
  repeat (apply andb_prop in Hs; destruct Hs as [Hs ?]).
  unfold normalize_step.
  repeat match goal with
         | H : negb _ = true |- _ => apply negb_true_iff in H; rewrite H; clear H
         end.
  reflexivity.
Qed.

Lemma ends_with_slash_join (l : list string) :
  l <> [] -> forallb clean_segment l = true ->
  forall c, ends_with_slash (String c (join "/" l)) = false.
Proof.
  induction l as [|s l IH]; intros Hne H c; [congruence|].
  cbn [forallb] in H. apply andb_prop in H. destruct H as [Hs Hl].
  assert (Hlast : forall (x : string) (a : ascii),
             no_slash x = true -> x <> EmptyString ->
             ends_with_slash (String a x) = false).
  { clear. unfold no_slash. induction x as [|b x IHx]; intros a Hx Hne; [congruence|].
    simpl in Hx. apply andb_prop in Hx. destruct Hx as [Hb Hx].
    destruct x as [|b' x].
    - simpl. now apply negb_true_iff.
    - change (ends_with_slash (String a (String b (String b' x))))
        with (ends_with_slash (String b (String b' x))).
      apply IHx; [assumption | discriminate]. }
  assert (Hne_s : s <> EmptyString).
  { unfold clean_segment in Hs. destruct s; [discriminate | discriminate]. }
  destruct l as [|s' l].
  - cbn [join]. apply Hlast; [now apply clean_segment_no_slash | assumption].
  - change (join "/" (s :: s' :: l)) with (s ++ String "/" (join "/" (s' :: l))).
    assert (Happ : forall (x y : string) (a : ascii),
               y <> EmptyString ->
               ends_with_slash (String a (x ++ y)) = ends_with_slash y).
    { clear. induction x as [|b x IHx]; intros y a Hy.
      - destruct y; [congruence | reflexivity].
      - change (String a (String b x ++ y)) with (String a (String b (x ++ y))).
        change (ends_with_slash (String a (String b (x ++ y))))
          with (ends_with_slash (String b (x ++ y))).
        now apply IHx. }
    rewrite Happ by discriminate.
    apply IH; [discriminate | assumption].
Qed.

Lemma join_not_empty (l : list string) :
  l <> [] -> forallb clean_segment l = true -> join "/" l <> EmptyString.
Proof.
  destruct l as [|s l]; [congruence|]. intros _ H.
  cbn [forallb] in H. apply andb_prop in H. destruct H as [Hs _].
  destruct s as [|c s]; [discriminate|].
  destruct l; simpl; discriminate.
Qed.

(** A normalized absolute path is left as it is by [path.normalize]. *)
Lemma path_normalize_absolute (l : list string) :
  l <> [] -> forallb clean_segment l = true ->
  path_normalize (absolute l) = absolute l.
Proof.
  intros Hne H. unfold absolute, path_normalize.
  cbn [starts_with_slash negb]. change (("/" =? "/")%char) with true. cbv iota.
  rewrite (ends_with_slash_join l Hne H).
  unfold normalizeString. cbn [split_slash]. change (("/" =? "/")%char) with true.
  cbv iota. rewrite (split_slash_join l Hne H).
  cbn [fold_left negb]. change (normalize_step false [] "") with (@nil string).
  rewrite (normalize_clean false l [] H), app_nil_r, rev_involutive.
  destruct (join "/" l) eqn:E; [now elim (join_not_empty l Hne H)|].
  simpl. now rewrite append_nil_r.
Qed.

Lemma join_snoc (l : list string) (s : string) :
  l <> [] -> join "/" (l ++ [s]) = join "/" l ++ "/" ++ s.
Proof.
  induction l as [|x l IH]; intro Hne; [congruence|].
  destruct l as [|y l]; [reflexivity|].
  change (join "/" ((x :: y :: l) ++ [s])) with (x ++ "/" ++ join "/" ((y :: l) ++ [s])).
  rewrite IH by discriminate.
  change (join "/" (x :: y :: l)) with (x ++ "/" ++ join "/" (y :: l)).
  now rewrite !append_assoc.
Qed.

(** Joining a clean file name to a normalized absolute directory appends
    it after a slash. *)
Lemma path_join_absolute (l : list string) (file : string) :
  l <> [] -> forallb clean_segment l = true -> clean_segment file = true ->
  path_join (absolute l) file = absolute l ++ "/" ++ file.
Proof.
  intros Hne H Hfile. unfold path_join.
  assert (Hf : file <> EmptyString) by (destruct file; discriminate).
  destruct file as [|c file]; [congruence|].
  cbn [filter absolute String.eqb negb join].
  change (absolute l ++ "/" ++ String c file)
    with (String "/" (join "/" l ++ "/" ++ String c file)).
  rewrite <- (join_snoc l (String c file) Hne).
  apply (path_normalize_absolute (l ++ [String c file])).
  - now destruct l.
  - rewrite forallb_app, H. cbn [forallb]. now rewrite Hfile.
Qed.

Lemma string_forallb_app (p : ascii -> bool) (a b : string) :
  string_forallb p (a ++ b) = string_forallb p a && string_forallb p b.
Proof.
  induction a as [|c a IH]; simpl; [reflexivity|].
  now rewrite IH, andb_assoc.
Qed.

(** The cache file name is one clean path segment. *)
Lemma cache_filename_clean (key : string) :
  clean_segment (MD5.md5_hex key ++ ".json") = true.
Proof.
  assert (Hlen : String.length (MD5.md5_hex key) = 32)
    by (unfold MD5.md5_hex; now rewrite hex_length, digest_length).
  assert (Hhex : string_forallb is_hex_digit (MD5.md5_hex key) = true)
    by apply hex_is_hex.
  destruct (MD5.md5_hex key) as [|a [|b [|c s]]]; try discriminate Hlen.
  assert (Hns : string_forallb (fun x => negb (x =? "/")%char)
                  (String a (String b (String c s))) = true).
  { apply (string_forallb_impl is_hex_digit); [|exact Hhex].
    intros x Hx. destruct (Ascii.eqb_spec x "/") as [->|]; [discriminate Hx | reflexivity]. }
  unfold clean_segment, no_slash. rewrite string_forallb_app, Hns.
  cbn [append String.eqb].
  destruct (a =? ".")%char, (b =? ".")%char; reflexivity.
Qed.

(** X19: with an override that is a normalized absolute path (clean
    segments after a leading slash) that can be created, the path
    [cacheFile] returns is the override, a slash, the 32 hex digits of the
    MD5 of the fingerprint and [.json]. *)
Theorem cacheFile_path_under_override (t : tzdata) (c : config)
  (segments : list string) (w : World) :
  segments <> [] ->
  forallb clean_segment segments = true ->
  existsb (String.eqb (absolute segments)) (forbidden w) = false ->
  exists found,
    cacheFile t c (Some (absolute segments)) w
    = Ok ({| path := absolute segments ++ "/" ++ MD5.md5_hex (cacheKey t c) ++ ".json";
             exists_ := found |},
          add_entry (absolute segments) w).
Proof.
  intros Hne Hclean Hforb.
  rewrite cacheFile_run, cacheDir_run. unfold root_dir, prepared.
  cbn [absolute truthy_path]. fold (absolute segments). rewrite Hforb.
  cbv zeta.
  rewrite (path_join_absolute segments _ Hne Hclean (cache_filename_clean (cacheKey t c))).
  eexists. reflexivity.
Qed.

Lemma cacheFile_path_under_override_witness :
  exists found,
    cacheFile {| version := JStr "2023a" |} (config_split JUndefined (Int 2000) (Int 2020))
      (Some "/var/cache/tz") unsupported_world
    = Ok ({| path := "/var/cache/tz/5567dd1ddba2e32ad49fbd72ea418674.json";
             exists_ := found |},
          add_entry "/var/cache/tz" unsupported_world).
Proof.
  destruct (cacheFile_path_under_override {| version := JStr "2023a" |}
              (config_split JUndefined (Int 2000) (Int 2020))
              ["var"; "cache"; "tz"] unsupported_world)
    as (found & H).
  - discriminate.
  - reflexivity.
  - reflexivity.
  - exists found. exact H.
Defined.

(** * More on the match evaluator *)

(** X20: the two sets of [anyMatch] can be exchanged: the answer is the
    same whichever of them is passed first, an omitted set included. *)
Theorem anyMatch_commutes (item : string) (a b : matchers) :
  anyMatch item a b = anyMatch item b a.
Proof.
  unfold anyMatch.
  destruct a as [| |la], b as [| |lb]; cbn [anyMatch1];
    rewrite ?andb_true_r, ?andb_true_l; try reflexivity; apply andb_comm.
Qed.

(** X21: a set with at least one matcher accepts no more than any set that
    contains its matchers; the empty set is the exception, it accepts what
    a larger set may reject. *)
Theorem anyMatch_grows_with_the_set (item : string) (l1 l2 : list regex) :
  l1 <> [] ->
  incl l1 l2 ->
  anyMatch item (MArray l1) MUndefined = true ->
  anyMatch item (MArray l2) MUndefined = true.
Proof.
  intros Hne Hincl H. unfold anyMatch, anyMatch1 in *.
  destruct l1 as [|m1 l1]; [congruence|].
  apply existsb_exists in H. destruct H as (m & Hm & Ht).
  destruct l2 as [|m2 l2]; [reflexivity|].
  apply existsb_exists. exists m. split; [now apply Hincl | assumption].
Qed.

Lemma anyMatch_grows_with_the_set_witness :
  anyMatch "Europe/Paris" (MArray [anchored (lit "UTC"); europe]) MUndefined = true
  /\ anyMatch "UTC" (MArray []) MUndefined = true
  /\ anyMatch "UTC" (MArray [europe]) MUndefined = false.
Proof.
  split; [|split; reflexivity].
  apply (anyMatch_grows_with_the_set "Europe/Paris" [europe]).
  - discriminate.
  - intros m [<-|[]]. right. now left.
  - reflexivity.
Defined.
